(** * Verification of the vivekpractice programs

    Two programs are embedded here:
    - [p1.cpp]: the iterative [binarySearch] over a [std::vector<int>];
    - [prime.cpp]: the text adventure (classes [Item], [Room], [Player],
      [Game]).

    Conventions of the embedding.
    - [int] is the 32-bit two's complement integer; a value of type [int] is
      a [Z] and every conversion or operation that can leave the range is
      written with [to_int].
    - A [Room*] is an index into [Game::allRooms] (the arena that owns every
      room) or [None] for [nullptr].  Dereferencing a null or dangling
      pointer has no defined behaviour in C++: the functions that dereference
      return [option] and yield [None] there.
    - A [shared_ptr<Item>] is the item it points to: an item is never
      modified once constructed, and the items that [createWorld] makes are
      pairwise different.  The null [shared_ptr] is [None].
    - [size_t] has 64 bits.
    - [std::cout] is the list of the chunks written to it, oldest first;
      [std::endl] is the newline character.  [std::cin] is the list of the
      lines that [std::getline] will deliver; reading from the empty list is
      the end of input.
    - [::tolower] and the stream's whitespace classification are those of
      the default "C" locale. *)

From Stdlib Require Import ZArith Ascii String List Lia Permutation Sorted.
From stdpp Require Import base option list gmap strings sorting.

(** ** p1.cpp *)

Module P1.

Local Open Scope Z_scope.

Definition INT_MAX : Z := 2 ^ 31 - 1.
Definition INT_MIN : Z := - 2 ^ 31.

(** Conversion of an integer value to [int]: the value modulo [2^32] in
    the range [INT_MIN .. INT_MAX]. *)
Definition to_int (z : Z) : Z := (z + 2 ^ 31) mod 2 ^ 32 - 2 ^ 31.

(** [arr.size() - 1] is computed in [size_t] (64 bits, unsigned). *)
Definition size_minus_one (arr : list Z) : Z :=
  (Z.of_nat (length arr) - 1) mod 2 ^ 64.

(** [arr[mid]]: defined only inside the vector. *)
Definition at_index (arr : list Z) (i : Z) : option Z :=
  if i <? 0 then None else arr !! Z.to_nat i.

(** The [while (low <= high)] loop.  [fuel] bounds the number of
    iterations; [None] is an iteration budget that ran out or a read
    outside the vector. *)
Fixpoint search (fuel : nat) (arr : list Z) (target low high : Z)
  : option Z :=
  if low <=? high then
    match fuel with
    | O => None
    | S fuel' =>
        let mid := to_int (low + to_int (to_int (high - low) ÷ 2)) in
        match at_index arr mid with
        | None => None
        | Some v =>
            if v =? target then Some mid
            else if v <? target
                 then search fuel' arr target (to_int (mid + 1)) high
                 else search fuel' arr target low (to_int (mid - 1))
        end
    end
  else Some (-1).

Definition binarySearch (arr : list Z) (target : Z) : option Z :=
  let low := 0 in
  let high := to_int (size_minus_one arr) in
  search (S (length arr)) arr target low high.

(** The vector of [main]. *)
Definition numbers : list Z := [2; 5; 8; 12; 16; 23; 38; 56; 72; 91].

End P1.

(** ** prime.cpp: text helpers *)

Module Text.

(** [std::endl], as the character it writes. *)
Definition endl : string := String "010" EmptyString.

(** [::tolower] in the "C" locale: only 'A'..'Z' change. *)
Definition tolower (c : ascii) : ascii :=
  let n := nat_of_ascii c in
  if ((65 <=? n) && (n <=? 90))%nat then ascii_of_nat (n + 32) else c.

(** [std::transform(s.begin(), s.end(), s.begin(), ::tolower)]. *)
Fixpoint lowercase (s : string) : string :=
  match s with
  | EmptyString => EmptyString
  | String c s' => String (tolower c) (lowercase s')
  end.

(** Whitespace as [operator>>] of a stream sees it: space, \t, \n, \v,
    \f, \r. *)
Definition isspace (c : ascii) : bool :=
  let n := nat_of_ascii c in
  ((n =? 32) || ((9 <=? n) && (n <=? 13)))%nat.

(** [std::string(width, c)]. *)
Fixpoint fill (width : nat) (c : ascii) : string :=
  match width with
  | O => EmptyString
  | S w => String c (fill w c)
  end.

(** Leading whitespace skipped by [ss >> word]. *)
Fixpoint skip_ws (s : string) : string :=
  match s with
  | EmptyString => EmptyString
  | String c s' => if isspace c then skip_ws s' else s
  end.

(** The characters [ss >> word] extracts, and what stays in the stream. *)
Fixpoint take_word (s : string) : string * string :=
  match s with
  | EmptyString => (EmptyString, EmptyString)
  | String c s' =>
      if isspace c then (EmptyString, s)
      else let (w, r) := take_word s' in (String c w, r)
  end.

(** [std::getline(ss, remaining)] on a stream that still holds [s]. *)
Fixpoint until_newline (s : string) : string :=
  match s with
  | EmptyString => EmptyString
  | String c s' =>
      if Ascii.eqb c "010" then EmptyString else String c (until_newline s')
  end.

(** [s.substr(s.find_first_not_of(' '))], or the empty string when
    [find_first_not_of] returns [npos]. *)
Fixpoint drop_spaces (s : string) : string :=
  match s with
  | EmptyString => EmptyString
  | String c s' => if Ascii.eqb c " " then drop_spaces s' else s
  end.

(** [s.empty()]. *)
Definition empty (s : string) : bool :=
  match s with EmptyString => true | _ => false end.

End Text.

(** ** class Item *)

Module Item.

Record t := mk { name : string; description : string; takeable : bool }.

(** [Item::look]: what it writes to [std::cout]. *)
Definition look (i : t) : list string := [description i +:+ Text.endl].

Definition getNameLower (i : t) : string := Text.lowercase (name i).

End Item.

(** ** class Room *)

Module Room.

(** [exits] maps a direction to a [Room*]; [items] holds the
    [shared_ptr<Item>]s of the room, oldest first ([addItem] never stores
    a null pointer). *)
Record t := mk {
  name : string;
  description : string;
  exits : gmap string (option nat);
  items : list Item.t
}.

(** [Room(n, desc)]: no exits, no items. *)
Definition new (n desc : string) : t := mk n desc ∅ [].

Definition printSeparator (c : ascii) (width : nat) : list string :=
  [Text.fill width c +:+ Text.endl].

(** [std::map] iterates its keys in increasing order ([std::less] on
    [std::string]: lexicographic on the unsigned character codes). *)
Fixpoint insert_sorted {V} (kv : string * V) (l : list (string * V))
  : list (string * V) :=
  match l with
  | [] => [kv]
  | kv' :: l' =>
      if String.leb (fst kv) (fst kv') then kv :: l
      else kv' :: insert_sorted kv l'
  end.

Definition in_key_order {V} (m : gmap string V) : list (string * V) :=
  foldr insert_sorted [] (map_to_list m).

(** One line of the exit list: [pair.second->name] dereferences the
    target. *)
Definition exit_line (rooms : list t) (e : string * option nat)
  : option string :=
  target ← snd e;
  r ← rooms !! target;
  Some (" - " +:+ fst e +:+ " (" +:+ name r +:+ ")" +:+ Text.endl).

(** [Room::look]: the chunks written to [std::cout]. *)
Definition look (rooms : list t) (r : t) : option (list string) :=
  let head :=
    printSeparator "-" 50 ++
    ["Location: " +:+ name r +:+ Text.endl] ++
    printSeparator "-" 50 ++
    [description r +:+ Text.endl] in
  let seen :=
    match items r with
    | [] => [Text.endl +:+ "The room seems empty of loose items." +:+ Text.endl]
    | _ => [Text.endl +:+ "You see here:" +:+ Text.endl] ++
           map (λ i, " - " +:+ Item.name i +:+ Text.endl) (items r)
    end in
  ways ←
    match in_key_order (exits r) with
    | [] => Some [Text.endl +:+ "There are no obvious exits." +:+ Text.endl]
    | es => lines ← mapM (exit_line rooms) es;
            Some ([Text.endl +:+ "Exits:" +:+ Text.endl] ++ lines)
    end;
  Some (head ++ seen ++ ways ++ printSeparator "-" 50).

Definition getExit (r : t) (direction : string) : option nat :=
  match exits r !! direction with
  | Some target => target
  | None => None
  end.

Definition addExit (direction : string) (targetRoom : option nat) (r : t) : t :=
  let lowerDir := Text.lowercase direction in
  mk (name r) (description r) (<[lowerDir := targetRoom]> (exits r)) (items r).

(** [item] is a [shared_ptr<Item>]: [None] is the null pointer. *)
Definition addItem (item : option Item.t) (r : t) : t :=
  match item with
  | Some i => mk (name r) (description r) (exits r) (items r ++ [i])
  | None => r
  end.

(** The scan of [removeItem] over the vector: the first match and the
    vector without it. *)
Fixpoint remove_first (itemNameLower : string) (l : list Item.t)
  : option (Item.t * list Item.t) :=
  match l with
  | [] => None
  | i :: l' =>
      if String.eqb (Item.getNameLower i) itemNameLower then Some (i, l')
      else match remove_first itemNameLower l' with
           | Some (found, rest) => Some (found, i :: rest)
           | None => None
           end
  end.

(** [Room::removeItem]: the returned pointer and the room afterwards. *)
Definition removeItem (itemNameLower : string) (r : t) : option Item.t * t :=
  match remove_first itemNameLower (items r) with
  | Some (found, rest) =>
      (Some found, mk (name r) (description r) (exits r) rest)
  | None => (None, r)
  end.

Fixpoint find_first (itemNameLower : string) (l : list Item.t)
  : option Item.t :=
  match l with
  | [] => None
  | i :: l' =>
      if String.eqb (Item.getNameLower i) itemNameLower then Some i
      else find_first itemNameLower l'
  end.

Definition findItem (itemNameLower : string) (r : t) : option Item.t :=
  find_first itemNameLower (items r).

End Room.

(** ** class Player *)

Module Player.

Record t := mk { currentLocation : option nat; inventory : list Item.t }.

(** [Player(startRoom)]. *)
Definition new (startRoom : option nat) : t := mk startRoom [].

(** The methods below return the player (and the rooms, when they change
    one) after the call together with the chunks written to [std::cout];
    [None] is a dereference of a dangling [Room*]. *)

Definition moveTo (newRoom : option nat) (rooms : list Room.t) (p : t)
  : option (bool * t * list string) :=
  match newRoom with
  | Some target =>
      r ← rooms !! target;
      out ← Room.look rooms r;
      Some (true, mk (Some target) (inventory p), out)
  | None => Some (false, p, [])
  end.

Definition go (direction : string) (rooms : list Room.t) (p : t)
  : option (t * list string) :=
  match currentLocation p with
  | None =>
      Some (p, ["You seem to be floating in the void... something is wrong."
                +:+ Text.endl])
  | Some here =>
      r ← rooms !! here;
      let lowerDir := Text.lowercase direction in
      let nextRoom := Room.getExit r lowerDir in
      match nextRoom with
      | Some _ =>
          '(_, p', out) ← moveTo nextRoom rooms p;
          Some (p', ["You move " +:+ lowerDir +:+ "..." +:+ Text.endl
                     +:+ Text.endl] ++ out)
      | None => Some (p, ["You can't go that way." +:+ Text.endl])
      end
  end.

Definition look (rooms : list Room.t) (p : t) : option (list string) :=
  match currentLocation p with
  | Some here => r ← rooms !! here; Room.look rooms r
  | None => Some ["You can't see anything, you're nowhere." +:+ Text.endl]
  end.

Definition lookAt (itemName : string) (rooms : list Room.t) (p : t)
  : option (list string) :=
  let lowerName := Text.lowercase itemName in
  match Room.find_first lowerName (inventory p) with
  | Some item => Some (Item.look item)
  | None =>
      let unseen :=
        ["You don't see any '" +:+ itemName +:+ "' here." +:+ Text.endl] in
      match currentLocation p with
      | Some here =>
          r ← rooms !! here;
          match Room.findItem lowerName r with
          | Some itemInRoom => Some (Item.look itemInRoom)
          | None => Some unseen
          end
      | None => Some unseen
      end
  end.

Definition take (itemName : string) (rooms : list Room.t) (p : t)
  : option (t * list Room.t * list string) :=
  match currentLocation p with
  | None => Some (p, rooms, ["There's nothing here to take." +:+ Text.endl])
  | Some here =>
      r ← rooms !! here;
      let lowerName := Text.lowercase itemName in
      match Room.findItem lowerName r with
      | None =>
          Some (p, rooms,
                ["You don't see a '" +:+ itemName +:+ "' here to take."
                 +:+ Text.endl])
      | Some itemToTake =>
          if negb (Item.takeable itemToTake) then
            Some (p, rooms,
                  ["You can't take the " +:+ Item.name itemToTake +:+ "."
                   +:+ Text.endl])
          else
            let (removed, r') := Room.removeItem lowerName r in
            let rooms' := <[here := r']> rooms in
            match removed with
            | Some item =>
                Some (mk (currentLocation p) (inventory p ++ [item]), rooms',
                      ["You picked up the " +:+ Item.name item +:+ "."
                       +:+ Text.endl])
            | None =>
                Some (p, rooms',
                      ["Something went wrong trying to take the "
                       +:+ itemName +:+ "." +:+ Text.endl])
            end
      end
  end.

Definition showInventory (p : t) : list string :=
  Room.printSeparator "=" 40 ++
  ["Inventory:" +:+ Text.endl] ++
  match inventory p with
  | [] => ["You are not carrying anything." +:+ Text.endl]
  | _ => map (λ i, " - " +:+ Item.name i +:+ Text.endl) (inventory p)
  end ++
  Room.printSeparator "=" 40.

Definition hasItem (itemNameLower : string) (p : t) : bool :=
  match Room.find_first itemNameLower (inventory p) with
  | Some _ => true
  | None => false
  end.

End Player.

(** ** The standard streams *)

Module Console.

Record t := mk { cin : list string; cout : list string; cerr : list string }.

Definition print (chunks : list string) (c : t) : t :=
  mk (cin c) (cout c ++ chunks) (cerr c).

Definition printerr (chunks : list string) (c : t) : t :=
  mk (cin c) (cout c) (cerr c ++ chunks).

(** [std::getline(std::cin, line)]: the line read, or [None] at the end of
    input (the stream then stays failed). *)
Definition getline (c : t) : option string * t :=
  match cin c with
  | [] => (None, c)
  | line :: rest => (Some line, mk rest (cout c) (cerr c))
  end.

End Console.

(** What a loop whose iterations are counted can end in. *)
Inductive outcome (A : Type) : Type :=
| Finished (a : A)
| Undefined
| OutOfFuel.
Arguments Finished {A} a.
Arguments Undefined {A}.
Arguments OutOfFuel {A}.

(** ** The locals of [Game::createWorld]

    The items; the rooms in the order [std::make_shared] creates them, which
    is the order in which they are pushed on [allRooms], so that a room's
    pointer is its position there; the [addExit] calls (room, direction,
    target) and the [addItem] calls (room, item), both in source order.
    [map_] is the source's [map]. *)

Module World.

Definition nl : string := Text.endl.

Definition key : Item.t :=
  Item.mk "Rusty Key"
    ("A small, tarnished key. It looks old.") true.
Definition map_ : Item.t :=
  Item.mk "Torn Map"
    ("A piece of parchment with crude drawings. Part of it is missing.") true.
Definition torch : Item.t :=
  Item.mk "Dim Torch"
    ("An old wooden torch, casting a weak, flickering light.") true.
Definition sword : Item.t :=
  Item.mk "Iron Sword"
    ("A basic iron sword. It's seen better days but still functional.") true.
Definition shield : Item.t :=
  Item.mk "Wooden Shield"
    ("A simple round wooden shield.") true.
Definition potion : Item.t :=
  Item.mk "Red Potion"
    ("A small vial containing a bubbling red liquid.") true.
Definition book : Item.t :=
  Item.mk "Dusty Book"
    ("A heavy tome bound in cracked leather. The title is illegible.") true.
Definition coin : Item.t :=
  Item.mk "Gold Coin"
    ("A shiny gold coin.") true.
Definition gem : Item.t :=
  Item.mk "Blue Gem"
    ("A sparkling blue gem.") true.
Definition scroll : Item.t :=
  Item.mk "Ancient Scroll"
    ("A fragile scroll covered in strange symbols.") true.
Definition statue : Item.t :=
  Item.mk "Stone Statue"
    ("A large statue of a forgotten king, covered in moss.") false.
Definition fountain : Item.t :=
  Item.mk "Dry Fountain"
    ("An ornate fountain, now dry and filled with leaves.") false.
Definition altar : Item.t :=
  Item.mk "Stone Altar"
    ("A flat stone altar with strange carvings.") false.
Definition tapestry : Item.t :=
  Item.mk "Faded Tapestry"
    ("A large, moth-eaten tapestry depicting a hunting scene.") false.
Definition painting : Item.t :=
  Item.mk "Oil Painting"
    ("A painting of a stern-looking nobleman. His eyes seem to follow you.") false.
Definition well : Item.t :=
  Item.mk "Deep Well"
    ("A dark well. You can't see the bottom.") false.
Definition table : Item.t :=
  Item.mk "Wooden Table"
    ("A sturdy wooden table.") false.
Definition chair : Item.t :=
  Item.mk "Rickety Chair"
    ("An old wooden chair that looks unsafe to sit on.") false.
Definition bed : Item.t :=
  Item.mk "Straw Bed"
    ("A simple bed made of straw. Doesn't look comfortable.") false.
Definition fireplace : Item.t :=
  Item.mk "Cold Fireplace"
    ("A large stone fireplace, full of ashes.") false.

Definition start_cell : nat := 0.
Definition corridor_1 : nat := 1.
Definition guard_room : nat := 2.
Definition armory : nat := 3.
Definition main_hall : nat := 4.
Definition kitchen : nat := 5.
Definition pantry : nat := 6.
Definition library : nat := 7.
Definition study : nat := 8.
Definition courtyard : nat := 9.
Definition garden_path : nat := 10.
Definition deep_forest : nat := 11.
Definition cellar_stairs : nat := 12.
Definition wine_cellar : nat := 13.
Definition storage_room : nat := 14.
Definition hidden_passage : nat := 15.
Definition underground_stream : nat := 16.
Definition outer_gate : nat := 17.
Definition tower_base : nat := 18.
Definition tower_stairs : nat := 19.
Definition tower_top : nat := 20.

Definition fresh_rooms : list Room.t := [
  Room.new "Damp Cell"
    ("You are in a small, damp stone cell. The air is cold and smells of mildew." +:+ nl +:+
     "A single barred window is high on one wall, letting in faint moonlight." +:+ nl +:+
     "The only exit seems to be a heavy wooden door to the north.");
  Room.new "Narrow Corridor"
    ("A narrow stone corridor stretches ahead. Torches flicker dimly on the walls." +:+ nl +:+
     "It continues north and south.");
  Room.new "Guard Room"
    ("This looks like it was a guard room. An overturned table and a broken chair lie on the floor." +:+ nl +:+
     "There's an exit west and the corridor continues south.");
  Room.new "Small Armory"
    ("This small room is clearly an armory, though mostly empty now." +:+ nl +:+
     "Racks line the walls, but only a few items remain." +:+ nl +:+
     "An exit leads east back to the guard room.");
  Room.new "Main Hall"
    ("A large, echoing hall. Dust motes dance in the beams of light (if any)." +:+ nl +:+
     "Faded tapestries hang on the walls. Exits lead north, south, and east.");
  Room.new "Abandoned Kitchen"
    ("This was once a kitchen. Pots and pans lie scattered around." +:+ nl +:+
     "A large, cold fireplace dominates one wall." +:+ nl +:+
     "An exit leads west back to the Main Hall.");
  Room.new "Dusty Pantry"
    ("A small pantry adjoining the kitchen. Shelves line the walls, mostly empty except for cobwebs and dust." +:+ nl +:+
     "A single exit leads south to the kitchen.");
  Room.new "Quiet Library"
    ("Rows of tall bookshelves fill this room, though many books are missing or destroyed." +:+ nl +:+
     "The air smells of old paper and dust." +:+ nl +:+
     "An exit leads west from the Main Hall.");
  Room.new "Small Study"
    ("A small, cluttered study. A large wooden desk sits against one wall." +:+ nl +:+
     "Papers are scattered everywhere." +:+ nl +:+
     "An exit leads south back to the library.");
  Room.new "Overgrown Courtyard"
    ("You step outside into a courtyard overgrown with weeds and thorny bushes." +:+ nl +:+
     "A dry fountain sits in the center." +:+ nl +:+
     "Exits lead north (back into the Main Hall) and east (to a path).");
  Room.new "Garden Path"
    ("A winding path through what was once a garden. It's wild and untamed now." +:+ nl +:+
     "The path continues east and west (back to the courtyard).");
  Room.new "Deep Forest"
    ("The path ends abruptly at the edge of a dark, imposing forest." +:+ nl +:+
     "The trees are thick and block out much of the light. " +:+ nl +:+
     "You feel watched." +:+ nl +:+
     "Going back west is the only clear option for now.");
  Room.new "Cellar Stairs"
    ("Stone steps lead down into darkness from the main hall (south exit)." +:+ nl +:+
     "The air is noticeably colder here." +:+ nl +:+
     "Stairs go down, and back up (north).");
  Room.new "Wine Cellar"
    ("Rows of empty wine racks line the walls of this cool cellar." +:+ nl +:+
     "Some broken bottles crunch underfoot." +:+ nl +:+
     "Stairs lead up. Another passage leads east.");
  Room.new "Storage Room"
    ("A damp storage room filled with broken crates and barrels." +:+ nl +:+
     "It smells strongly of mildew." +:+ nl +:+
     "The only exit is west, back to the wine cellar.");
  Room.new "Hidden Passage"
    ("A narrow, secret passage behind a loose stone in the storage room (requires finding/action - not implemented yet)." +:+ nl +:+
     "It's pitch black without a light source." +:+ nl +:+
     "Exits lead west (back to storage) and north.");
  Room.new "Underground Stream"
    ("The passage opens into a small cavern where a slow-moving underground stream flows." +:+ nl +:+
     "The water looks surprisingly clear." +:+ nl +:+
     "A passage leads south.");
  Room.new "Outer Gate"
    ("You've reached a large, rusted iron gate, seemingly the main entrance/exit to this place." +:+ nl +:+
     "It appears stuck or locked (not implemented)." +:+ nl +:+
     "Path leads back south into the Courtyard.");
  Room.new "Tower Base"
    ("The base of a crumbling stone tower. Rubble lies scattered around." +:+ nl +:+
     "There's a doorway leading inside (north) and the Garden Path is to the west.");
  Room.new "Tower Stairs"
    ("A winding stone staircase climbs upwards inside the tower." +:+ nl +:+
     "It looks unstable in places." +:+ nl +:+
     "Stairs go up and down (south).");
  Room.new "Tower Top"
    ("You are at the top of the crumbling tower. The wind whistles through gaps in the stone." +:+ nl +:+
     "You have a wide view of the surrounding area (mostly forest)." +:+ nl +:+
     "Stairs lead down.")
].

Definition wiring : list (nat * string * nat) := [
  (start_cell, "north", corridor_1);
  (corridor_1, "south", start_cell);
  (corridor_1, "north", main_hall);
  (guard_room, "south", corridor_1);
  (guard_room, "west", armory);
  (start_cell, "north", corridor_1);
  (corridor_1, "south", start_cell);
  (corridor_1, "north", guard_room);
  (guard_room, "south", corridor_1);
  (guard_room, "west", armory);
  (guard_room, "north", main_hall);
  (armory, "east", guard_room);
  (main_hall, "south", guard_room);
  (main_hall, "east", kitchen);
  (main_hall, "west", library);
  (main_hall, "north", courtyard);
  (main_hall, "down", cellar_stairs);
  (kitchen, "west", main_hall);
  (kitchen, "north", pantry);
  (pantry, "south", kitchen);
  (library, "east", main_hall);
  (library, "north", study);
  (study, "south", library);
  (courtyard, "south", main_hall);
  (courtyard, "east", garden_path);
  (courtyard, "north", outer_gate);
  (outer_gate, "south", courtyard);
  (garden_path, "west", courtyard);
  (garden_path, "east", deep_forest);
  (garden_path, "north", tower_base);
  (deep_forest, "west", garden_path);
  (tower_base, "south", garden_path);
  (tower_base, "north", tower_stairs);
  (tower_stairs, "down", tower_base);
  (tower_stairs, "up", tower_top);
  (tower_top, "down", tower_stairs);
  (cellar_stairs, "up", main_hall);
  (cellar_stairs, "down", wine_cellar);
  (wine_cellar, "up", cellar_stairs);
  (wine_cellar, "east", storage_room);
  (storage_room, "west", wine_cellar);
  (storage_room, "east", hidden_passage);
  (hidden_passage, "west", storage_room);
  (hidden_passage, "north", underground_stream);
  (underground_stream, "south", hidden_passage)
].

Definition placement : list (nat * Item.t) := [
  (start_cell, torch);
  (start_cell, bed);
  (armory, sword);
  (armory, shield);
  (armory, gem);
  (guard_room, table);
  (guard_room, chair);
  (guard_room, coin);
  (main_hall, tapestry);
  (main_hall, statue);
  (kitchen, fireplace);
  (kitchen, potion);
  (pantry, scroll);
  (library, book);
  (study, painting);
  (study, key);
  (courtyard, fountain);
  (courtyard, well);
  (storage_room, map_);
  (wine_cellar, altar)
].

Definition created_items : list Item.t :=
  [key; map_; torch; sword; shield; potion; book; coin; gem; scroll;
   statue; fountain; altar; tapestry; painting; well; table; chair; bed;
   fireplace].

End World.

(** ** class Game *)

Module Game.

Record t := mk {
  player : Player.t;
  allRooms : list Room.t;
  gameOver : bool
}.

(** [Game::parseInput]: the verb and the noun it stores.  When the line
    holds only whitespace the extraction fails and both stay empty; when
    the word ends the line, the stream is at its end and [std::getline]
    reads nothing. *)
Definition parseInput (input : string) : string * string :=
  match Text.skip_ws input with
  | EmptyString => (EmptyString, EmptyString)
  | s =>
      let (word, rest) := Text.take_word s in
      let verb := Text.lowercase word in
      let remaining :=
        match rest with
        | EmptyString => EmptyString
        | _ => Text.until_newline rest
        end in
      (verb, Text.drop_spaces remaining)
  end.

Definition printHelp : list string :=
  Room.printSeparator "*" 40 ++
  ["Available Commands:" +:+ Text.endl;
   "  look          : Describe the current room and items." +:+ Text.endl;
   "  look at [item]: Describe a specific item." +:+ Text.endl;
   "  go [direction]: Move in a direction (e.g., 'go north')." +:+ Text.endl;
   "  take [item]   : Pick up an item." +:+ Text.endl;
   "  inventory / i : Show items you are carrying." +:+ Text.endl;
   "  help / ?      : Show this help message." +:+ Text.endl;
   "  quit / exit   : Leave the game." +:+ Text.endl] ++
  Room.printSeparator "*" 40.

Definition is_quit (verb : string) : bool :=
  String.eqb verb "quit" || String.eqb verb "exit".

Definition is_yes (confirmation : string) : bool :=
  String.eqb confirmation "yes" || String.eqb confirmation "y".

(** [Game::handleCommand]. *)
Definition handleCommand (verb noun : string) (g : t) (c : Console.t)
  : option (t * Console.t) :=
  if is_quit verb then
    let c := Console.print ["Are you sure you want to quit? (yes/no): "] c in
    let (answer, c) := Console.getline c in
    let confirmation :=
      Text.lowercase (match answer with Some a => a | None => EmptyString end) in
    if is_yes confirmation then
      Some (mk (player g) (allRooms g) true,
            Console.print [Text.endl +:+ "Goodbye! Thanks for playing."
                           +:+ Text.endl] c)
    else
      Some (g, Console.print ["Okay, continuing game." +:+ Text.endl] c)
  else if String.eqb verb "look" then
    out ← (if Text.empty noun then Player.look (allRooms g) (player g)
           else Player.lookAt noun (allRooms g) (player g));
    Some (g, Console.print out c)
  else if String.eqb verb "go" || String.eqb verb "move"
          || String.eqb verb "walk" then
    if Text.empty noun then
      Some (g, Console.print ["Go where? (e.g., 'go north')" +:+ Text.endl] c)
    else
      '(p, out) ← Player.go noun (allRooms g) (player g);
      Some (mk p (allRooms g) (gameOver g), Console.print out c)
  else if String.eqb verb "take" || String.eqb verb "get"
          || String.eqb verb "pickup" then
    if Text.empty noun then
      Some (g, Console.print ["Take what?" +:+ Text.endl] c)
    else
      '(p, rooms, out) ← Player.take noun (allRooms g) (player g);
      Some (mk p rooms (gameOver g), Console.print out c)
  else if String.eqb verb "inventory" || String.eqb verb "i" then
    Some (g, Console.print (Player.showInventory (player g)) c)
  else if String.eqb verb "help" || String.eqb verb "?" then
    Some (g, Console.print printHelp c)
  else
    Some (g, Console.print
               ["Sorry, I don't understand '" +:+ verb
                +:+ "'. Try 'help' for commands." +:+ Text.endl] c).

(** [room->f(...)]: a call through a [Room*]. *)
Definition on (p : nat) (f : Room.t → Room.t) (rooms : list Room.t)
  : list Room.t :=
  alter f p rooms.

(** [Game::createWorld].  [base] is where the first new room lands in
    [allRooms]. *)
Definition createWorld (g : t) : t :=
  let base := length (allRooms g) in
  let rooms := allRooms g ++ World.fresh_rooms in
  let rooms :=
    foldl (λ rooms '(room, direction, target),
             on (base + room)
                (Room.addExit direction (Some (base + target))) rooms)
          rooms World.wiring in
  let rooms :=
    foldl (λ rooms '(room, item),
             on (base + room) (Room.addItem (Some item)) rooms)
          rooms World.placement in
  mk (player g) rooms (gameOver g).

(** The constructor [Game()]. *)
Definition new (c : Console.t) : t * Console.t :=
  let g := mk (Player.new None) [] false in
  let c := Console.print ["Initializing game world..." +:+ Text.endl] c in
  let g := createWorld g in
  let (g, c) :=
    match allRooms g with
    | first :: _ =>
        (mk (Player.new (Some 0)) (allRooms g) (gameOver g),
         Console.print ["World created. Player starts in: "
                        +:+ Room.name first +:+ Text.endl] c)
    | [] =>
        (mk (player g) (allRooms g) true,
         Console.printerr ["Error: No rooms were created!" +:+ Text.endl] c)
    end in
  (g, Console.print ["Type 'help' for commands." +:+ Text.endl +:+ Text.endl] c).

(** One pass through the body of the [while] of [Game::run]; the boolean
    is [false] when the body leaves the loop by [break]. *)
Definition iteration (g : t) (c : Console.t) : option (bool * t * Console.t) :=
  let c := Console.print [Text.endl +:+ "> "] c in
  match Console.getline c with
  | (None, c) =>
      Some (false, g,
            Console.print ["Error reading input or EOF detected. Quitting."
                           +:+ Text.endl] c)
  | (Some inputLine, c) =>
      if Text.empty inputLine then Some (true, g, c)
      else
        let (verb, noun) := parseInput inputLine in
        if negb (Text.empty verb) then
          '(g, c) ← handleCommand verb noun g c;
          Some (true, g, c)
        else if negb (Text.empty inputLine)
                && negb (Text.empty (Text.drop_spaces inputLine)) then
          Some (true, g,
                Console.print ["Please enter a valid command. Try 'help'."
                               +:+ Text.endl] c)
        else Some (true, g, c)
  end.

(** [while (!gameOver) { ... }], at most [fuel] passes. *)
Fixpoint loop (fuel : nat) (g : t) (c : Console.t) : outcome (t * Console.t) :=
  if gameOver g then Finished (g, c)
  else
    match fuel with
    | O => OutOfFuel
    | S fuel' =>
        match iteration g c with
        | None => Undefined
        | Some (true, g', c') => loop fuel' g' c'
        | Some (false, g', c') => Finished (g', c')
        end
    end.

(** [Game::run].  Every pass that stays in the loop has read a line, so
    one pass more than there are lines is always enough. *)
Definition run (g : t) (c : Console.t) : outcome (t * Console.t) :=
  if gameOver g then
    Finished (g, Console.printerr
                   ["Game cannot start due to initialization errors."
                    +:+ Text.endl] c)
  else
    match Player.look (allRooms g) (player g) with
    | None => Undefined
    | Some out =>
        let c := Console.print out c in
        loop (S (length (Console.cin c))) g c
    end.

(** [~Game()]. *)
Definition delete (g : t) (c : Console.t) : Console.t :=
  Console.print [Text.endl +:+ "Cleaning up game resources..." +:+ Text.endl;
                 "Cleanup complete." +:+ Text.endl] c.

End Game.

(** [main] of prime.cpp. *)
Definition main (c : Console.t) : outcome Console.t :=
  let c := Console.print
             (Room.printSeparator "#" 60 ++
              ["###          Welcome to Simple Text Adventure!          ###"
               +:+ Text.endl] ++
              Room.printSeparator "#" 60 ++
              [Text.endl]) c in
  let (simpleGame, c) := Game.new c in
  match Game.run simpleGame c with
  | Finished (simpleGame, c) =>
      let c := Game.delete simpleGame c in
      Finished (Console.print [Text.endl +:+ "Exiting program." +:+ Text.endl] c)
  | Undefined => Undefined
  | OutOfFuel => OutOfFuel
  end.

(** ** Vocabulary of the statements *)

Module Spec.

(** The room [r] holding the items [l]. *)
Definition with_items (r : Room.t) (l : list Item.t) : Room.t :=
  Room.mk (Room.name r) (Room.description r) (Room.exits r) l.

(** Every item of the game: those lying in the rooms, then the inventory. *)
Definition all_items (rooms : list Room.t) (p : Player.t) : list Item.t :=
  concat (map Room.items rooms) ++ Player.inventory p.

(** [player.take(n)] for each [n] of [names], in order. *)
Fixpoint takes (names : list string) (rooms : list Room.t) (p : Player.t)
  : option (Player.t * list Room.t) :=
  match names with
  | [] => Some (p, rooms)
  | n :: names' =>
      '(p', rooms', _) ← Player.take n rooms p;
      takes names' rooms' p'
  end.

(** A [Room*] that points to a room of the arena. *)
Definition valid (rooms : list Room.t) (ptr : option nat) : Prop :=
  is_Some (ptr ≫= λ target, rooms !! target).

(** No exit of any room is null or dangling. *)
Definition well_formed (rooms : list Room.t) : Prop :=
  Forall (λ r, map_Forall (λ _ target, valid rooms target) (Room.exits r)) rooms.

(** The exits of a room as the [addExit] calls of [createWorld] leave them
    when, for each direction, only the last call counts: [list_to_map]
    keeps the first binding of a key, so the calls are listed latest
    first. *)
Definition final_exits (room : nat) : gmap string (option nat) :=
  list_to_map
    (reverse
       (omap (λ '(r, direction, target),
                if decide (r = room)
                then Some (Text.lowercase direction, Some target)
                else None)
             World.wiring)).

(** Every character of [s] satisfies [P]. *)
Fixpoint all_chars (P : ascii → bool) (s : string) : bool :=
  match s with
  | EmptyString => true
  | String c s' => P c && all_chars P s'
  end.

(** What every command keeps true of a game: the arena is well formed and
    the player stands in one of its rooms (or nowhere). *)
Definition sound (g : Game.t) : Prop :=
  well_formed (Game.allRooms g)
  ∧ ∀ here, Player.currentLocation (Game.player g) = Some here →
            is_Some (Game.allRooms g !! here).

(** [J] is the first item of [l], in order, whose lowercased name is
    [n]; no item of [l] has the lowercased name [n]. *)
Definition first_match (n : string) (l : list Item.t) (J : Item.t) : Prop :=
  ∃ l1 l2,
    l = l1 ++ J :: l2
    ∧ (∀ K, K ∈ l1 → Item.getNameLower K ≠ n)
    ∧ Item.getNameLower J = n.

Definition no_match (n : string) (l : list Item.t) : Prop :=
  ∀ K, K ∈ l → Item.getNameLower K ≠ n.

(** Every direction under which the room has an exit is in lower case. *)
Definition lowercase_keys (r : Room.t) : Prop :=
  ∀ k target, Room.exits r !! k = Some target → Text.lowercase k = k.

(** What a room is apart from the items lying in it. *)
Definition frame (r : Room.t) : string * string * gmap string (option nat) :=
  (Room.name r, Room.description r, Room.exits r).

(** How a game can differ from an earlier one: the rooms are the same but
    for their items, the inventory has only grown, by takeable items, and
    a player who was somewhere is still somewhere. *)
Definition evolves (g g' : Game.t) : Prop :=
  frame <$> Game.allRooms g' = frame <$> Game.allRooms g
  ∧ (∃ more,
        Player.inventory (Game.player g')
        = Player.inventory (Game.player g) ++ more
        ∧ Forall (λ J, Item.takeable J = true) more)
  ∧ (is_Some (Player.currentLocation (Game.player g)) →
     is_Some (Player.currentLocation (Game.player g'))).

(** How the streams can differ from earlier: lines were read from the
    front of the input, chunks were added at the end of the output, and
    the error stream was left alone. *)
Definition follows (c c' : Console.t) : Prop :=
  (∃ read, Console.cin c = read ++ Console.cin c')
  ∧ (∃ written, Console.cout c' = Console.cout c ++ written)
  ∧ Console.cerr c' = Console.cerr c.

(** The game as the constructor leaves it, on a console with the given
    input. *)
Definition fresh (lines : list string) : Game.t * Console.t :=
  Game.new (Console.mk lines [] []).

End Spec.

(** Two items are compared field by field. *)
#[local] Instance item_eq_dec : EqDecision Item.t.
Proof. solve_decision. Defined.

(** Validity of a pointer and well-formedness of an arena can be computed. *)
#[local] Instance valid_dec rooms ptr : Decision (Spec.valid rooms ptr).
Proof. unfold Spec.valid. apply _. Defined.

#[local] Instance well_formed_dec rooms : Decision (Spec.well_formed rooms).
Proof. unfold Spec.well_formed. apply _. Defined.

(** * Properties *)

(** ** binarySearch *)

Section BinarySearch.

Import P1.
Local Open Scope Z_scope.

Lemma to_int_id z : INT_MIN <= z <= INT_MAX → to_int z = z.
Proof.
  unfold to_int, INT_MIN, INT_MAX. intros Hz.
  rewrite Z.mod_small by lia. lia.
Qed.

Lemma size_minus_one_small arr :
  (0 < length arr)%nat → Z.of_nat (length arr) <= INT_MAX →
  size_minus_one arr = Z.of_nat (length arr) - 1.
Proof.
  unfold size_minus_one, INT_MAX. intros Hpos Hlen.
  apply Z.mod_small. lia.
Qed.

Lemma high_of_vector arr :
  Z.of_nat (length arr) <= INT_MAX →
  to_int (size_minus_one arr) = Z.of_nat (length arr) - 1.
Proof.
  intros Hlen. destruct arr as [|x arr].
  - reflexivity.
  - rewrite size_minus_one_small; [| simpl; lia | done].
    apply to_int_id. unfold INT_MIN, INT_MAX in *. lia.
Qed.

Lemma at_index_Some arr i :
  0 <= i < Z.of_nat (length arr) → ∃ v, at_index arr i = Some v.
Proof.
  intros Hi. unfold at_index.
  destruct (Z.ltb_spec i 0); [lia|].
  apply lookup_lt_is_Some. lia.
Qed.

Lemma sorted_at_index arr i j a b :
  Sorted Z.le arr → i <= j →
  at_index arr i = Some a → at_index arr j = Some b → a <= b.
Proof.
  intros Hs%Sorted_StronglySorted; [| intros x y z; lia].
  unfold at_index.
  destruct (Z.ltb_spec i 0); [done|]. destruct (Z.ltb_spec j 0); [done|].
  intros Hij Hi Hj.
  assert (Hn : (Z.to_nat i <= Z.to_nat j)%nat) by lia.
  clear Hij H H0. revert Hn Hi Hj.
  generalize (Z.to_nat i) (Z.to_nat j). clear i j.
  induction Hs as [|x l Hl IH Hx]; intros i j Hij Hi Hj; [done|].
  destruct i as [|i], j as [|j]; simpl in *.
  - simplify_eq. lia.
  - simplify_eq. rewrite Forall_forall in Hx.
    apply Hx, list_elem_of_lookup. eauto.
  - lia.
  - apply (IH i j); [lia | done | done].
Qed.

Lemma mid_between low high :
  0 <= low → low <= high → high <= INT_MAX →
  let mid := to_int (low + to_int (to_int (high - low) ÷ 2)) in
  mid = low + (high - low) / 2 ∧ low <= mid <= high.
Proof.
  intros Hlow Hle Hhigh. unfold INT_MAX in Hhigh.
  assert (Hq : 0 <= (high - low) / 2 <= high - low).
  { split; [apply Z.div_pos; lia|].
    apply Z.div_le_upper_bound; lia. }
  cbv zeta.
  rewrite (to_int_id (high - low)) by (unfold INT_MIN, INT_MAX; lia).
  rewrite Z.quot_div_nonneg by lia.
  rewrite (to_int_id ((high - low) / 2)) by (unfold INT_MIN, INT_MAX; lia).
  rewrite to_int_id by (unfold INT_MIN, INT_MAX; lia).
  lia.
Qed.

(** The loop invariant: between [low] and [high] the loop finds an
    occurrence of the target or reports that there is none. *)
Lemma search_spec arr target :
  Sorted Z.le arr → Z.of_nat (length arr) <= INT_MAX →
  ∀ fuel low high,
    0 <= low → high < Z.of_nat (length arr) → low <= high + 1 →
    high - low + 1 <= Z.of_nat fuel →
    ∃ r, search fuel arr target low high = Some r ∧
         ((r = -1 ∧ ∀ k, low <= k <= high → at_index arr k ≠ Some target)
          ∨ (low <= r <= high ∧ at_index arr r = Some target)).
Proof.
  intros Hs Hlen. induction fuel as [|fuel IH]; intros low high Hlow Hhigh Hlh Hfuel.
  - exists (-1). simpl. destruct (Z.leb_spec low high); [lia|].
    split; [done|]. left. split; [done|]. intros k Hk. lia.
  - cbn [search]. destruct (Z.leb_spec low high) as [Hle|Hgt].
    2:{ exists (-1). split; [done|]. left. split; [done|]. intros k Hk. lia. }
    destruct (mid_between low high) as [Hmid Hbetween]; [lia..|].
    cbv zeta in Hmid, Hbetween.
    set (mid := to_int (low + to_int (to_int (high - low) ÷ 2))) in *.
    clearbody mid.
    destruct (at_index_Some arr mid) as [v Hv]; [lia|].
    rewrite Hv. unfold INT_MAX in Hlen.
    destruct (Z.eqb_spec v target) as [->|Hne].
    { exists mid. split; [done|]. right. done. }
    destruct (Z.ltb_spec v target) as [Hlt|Hge].
    + rewrite (to_int_id (mid + 1)) by (unfold INT_MIN, INT_MAX; lia).
      destruct (IH (mid + 1) high) as (r & Hr & Hcases); [lia..|].
      exists r. split; [done|].
      destruct Hcases as [[-> Hnone]|[Hin Hat]]; [left|right].
      * split; [done|]. intros k Hk Hkt.
        destruct (Z.le_gt_cases k mid) as [Hkm|Hkm].
        -- pose proof (sorted_at_index arr k mid target v Hs Hkm Hkt Hv). lia.
        -- apply (Hnone k); [lia|done].
      * split; [lia|done].
    + rewrite (to_int_id (mid - 1)) by (unfold INT_MIN, INT_MAX; lia).
      destruct (IH low (mid - 1)) as (r & Hr & Hcases); [lia..|].
      exists r. split; [done|].
      destruct Hcases as [[-> Hnone]|[Hin Hat]]; [left|right].
      * split; [done|]. intros k Hk Hkt.
        destruct (Z.le_gt_cases mid k) as [Hkm|Hkm].
        -- pose proof (sorted_at_index arr mid k v target Hs Hkm Hv Hkt). lia.
        -- apply (Hnone k); [lia|done].
      * split; [lia|done].
Qed.

Lemma elem_at_index (arr : list Z) x :
  x ∈ arr → ∃ k, 0 <= k < Z.of_nat (length arr) ∧ at_index arr k = Some x.
Proof.
  intros [i Hi]%list_elem_of_lookup.
  exists (Z.of_nat i). pose proof (lookup_lt_Some _ _ _ Hi).
  split; [lia|]. unfold at_index.
  destruct (Z.ltb_spec (Z.of_nat i) 0); [lia|]. by rewrite Nat2Z.id.
Qed.

Lemma at_index_elem (arr : list Z) k x : at_index arr k = Some x → x ∈ arr.
Proof.
  unfold at_index. destruct (k <? 0); [done|].
  intros H. apply list_elem_of_lookup. eauto.
Qed.

Lemma sorted_replicate n (x : Z) : Sorted Z.le (replicate n x).
Proof.
  induction n as [|n IH]; simpl; constructor; [done|].
  destruct n; simpl; constructor. lia.
Qed.

(** A vector of more than [INT_MAX] elements whose size still fits 32
    bits: [high] is negative and the loop is never entered. *)
Lemma search_skipped n x :
  2 ^ 31 < Z.of_nat n <= 2 ^ 32 →
  binarySearch (replicate n x) x = Some (-1).
Proof.
  intros Hn. unfold binarySearch. rewrite length_replicate.
  assert (Hhigh : to_int (size_minus_one (replicate n x)) < 0).
  { unfold size_minus_one. rewrite length_replicate.
    rewrite (Z.mod_small (Z.of_nat n - 1)) by lia.
    unfold to_int.
    replace (Z.of_nat n - 1 + 2 ^ 31)
      with (Z.of_nat n - 1 - 2 ^ 31 + 1 * 2 ^ 32) by lia.
    rewrite Z.mod_add by lia. rewrite Z.mod_small by lia. lia. }
  cbn [search].
  destruct (Z.leb_spec 0 (to_int (size_minus_one (replicate n x)))); [lia|done].
Qed.

(** C9, as the code has it: on a sorted vector of at most [INT_MAX]
    elements, [binarySearch] returns an index at which the target occurs
    when the target is in the vector, and -1 when it is not. *)
Theorem binarySearch_correct arr target :
  Sorted Z.le arr → Z.of_nat (length arr) <= INT_MAX →
  (target ∈ arr →
   ∃ i, binarySearch arr target = Some i ∧ at_index arr i = Some target)
  ∧ (target ∉ arr → binarySearch arr target = Some (-1)).
Proof.
  intros Hs Hlen. unfold binarySearch. rewrite high_of_vector by done.
  destruct (search_spec arr target Hs Hlen (S (length arr)) 0
              (Z.of_nat (length arr) - 1)) as (r & Hr & Hcases); [lia..|].
  rewrite Hr. split.
  - intros (k & Hk & Hat)%elem_at_index.
    destruct Hcases as [[-> Hnone]|[_ Hfound]]; [|eauto].
    exfalso. apply (Hnone k); [lia|done].
  - intros Hnot. destruct Hcases as [[-> _]|[_ Hfound]]; [done|].
    exfalso. apply Hnot. by apply at_index_elem in Hfound.
Qed.

Lemma binarySearch_correct_witness :
  Sorted Z.le numbers ∧ Z.of_nat (length numbers) <= INT_MAX ∧
  (23 ∈ numbers →
   ∃ i, binarySearch numbers 23 = Some i ∧ at_index numbers i = Some 23)
  ∧ (23 ∉ numbers → binarySearch numbers 23 = Some (-1)).
Proof.
  assert (Hs : Sorted Z.le numbers).
  { unfold numbers. repeat constructor; discriminate. }
  assert (Hlen : Z.of_nat (length numbers) <= INT_MAX) by discriminate.
  split; [exact Hs|]. split; [exact Hlen|].
  exact (binarySearch_correct numbers 23 Hs Hlen).
Defined.

(** C9 as stated fails on a long vector: with [2^31 + 1] equal elements
    the target is in the (sorted) vector and the answer is -1. *)
Lemma binarySearch_long_vector :
  let arr := replicate (Z.to_nat (2 ^ 31 + 1)) 7 in
  Sorted Z.le arr ∧ 7 ∈ arr ∧ binarySearch arr 7 = Some (-1).
Proof.
  intros arr. subst arr. split; [apply sorted_replicate|]. split.
  - apply elem_of_replicate. split; [done|]. lia.
  - apply search_skipped. rewrite Z2Nat.id by lia. lia.
Qed.

Example p1_found : binarySearch numbers 23 = Some 5.
Proof. reflexivity. Qed.

Example p1_not_found : binarySearch numbers 40 = Some (-1).
Proof. reflexivity. Qed.

End BinarySearch.

(** ** Lower case *)

Section Lowercase.

Lemma tolower_idemp c : Text.tolower (Text.tolower c) = Text.tolower c.
Proof. destruct c as [[] [] [] [] [] [] [] []]; reflexivity. Qed.

Lemma lowercase_idemp s : Text.lowercase (Text.lowercase s) = Text.lowercase s.
Proof.
  induction s as [|c s IH]; simpl; [done|]. by rewrite tolower_idemp, IH.
Qed.

End Lowercase.

(** ** Room: exits *)

Section Exits.

Lemma getExit_addExit_same R D X :
  Room.getExit (Room.addExit D X R) (Text.lowercase D) = X.
Proof.
  unfold Room.getExit, Room.addExit. simpl.
  rewrite lookup_insert_eq. by destruct X.
Qed.

Lemma getExit_addExit_other R D X key :
  key ≠ Text.lowercase D →
  Room.getExit (Room.addExit D X R) key = Room.getExit R key.
Proof.
  intros Hne. unfold Room.getExit, Room.addExit. simpl.
  by rewrite lookup_insert_ne.
Qed.

(** C2, as the code has it: after [R.addExit(D, X)], [R.getExit] returns
    [X] for the lowercased form of every case variant of [D]; [getExit]
    looks its argument up as it is, and it is [Player::go] that lowercases
    what the player typed, so [go] treats case variants alike. *)
Theorem getExit_after_addExit (R : Room.t) (D D' : string) (X : option nat) :
  Text.lowercase D' = Text.lowercase D →
  Room.getExit (Room.addExit D X R) (Text.lowercase D') = X
  ∧ ∀ rooms p, Player.go D' rooms p = Player.go D rooms p.
Proof.
  intros Hvariant. split.
  - rewrite Hvariant. apply getExit_addExit_same.
  - intros rooms p. unfold Player.go. by rewrite Hvariant.
Qed.

Lemma getExit_after_addExit_witness :
  Text.lowercase "NORTH" = Text.lowercase "north" ∧
  Room.getExit (Room.addExit "north" (Some 1) (Room.new "Damp Cell" ""))
    (Text.lowercase "NORTH") = Some 1
  ∧ ∀ rooms p, Player.go "NORTH" rooms p = Player.go "north" rooms p.
Proof.
  split; [reflexivity|].
  apply (getExit_after_addExit (Room.new "Damp Cell" "") "north" "NORTH" (Some 1)).
  reflexivity.
Defined.

(** C2 as stated fails: [getExit] with the uppercased direction finds
    nothing, although the exit was added under that direction. *)
Lemma getExit_uppercase_misses :
  let R := Room.addExit "north" (Some 1) (Room.new "Damp Cell" "") in
  Text.lowercase "NORTH" = Text.lowercase "north"
  ∧ Room.getExit R "NORTH" = None
  ∧ Room.getExit R "NORTH" ≠ Some 1.
Proof. vm_compute. repeat split; congruence. Qed.

End Exits.

(** ** Room: items *)

Section Items.

Lemma find_first_split n l1 J l2 :
  (∀ K, K ∈ l1 → Item.getNameLower K ≠ n) → Item.getNameLower J = n →
  Room.find_first n (l1 ++ J :: l2) = Some J
  ∧ Room.remove_first n (l1 ++ J :: l2) = Some (J, l1 ++ l2).
Proof.
  intros Hl1 HJ. induction l1 as [|K l1 IH]; simpl.
  - rewrite (proj2 (String.eqb_eq _ _) HJ). done.
  - assert (HK : Item.getNameLower K ≠ n) by (apply Hl1; left).
    rewrite (proj2 (String.eqb_neq _ _) HK).
    destruct IH as [-> ->]; [|done].
    intros K' HK'. apply Hl1. by right.
Qed.

Lemma find_first_none n l :
  (∀ K, K ∈ l → Item.getNameLower K ≠ n) →
  Room.find_first n l = None ∧ Room.remove_first n l = None.
Proof.
  intros Hl. induction l as [|K l IH]; simpl; [done|].
  assert (HK : Item.getNameLower K ≠ n) by (apply Hl; left).
  rewrite (proj2 (String.eqb_neq _ _) HK).
  destruct IH as [-> ->]; [|done].
  intros K' HK'. apply Hl. by right.
Qed.

(** What [findItem] finds is what [removeItem] removes. *)
Lemma find_first_cases n l :
  (Room.find_first n l = None ∧ Room.remove_first n l = None
   ∧ ∀ K, K ∈ l → Item.getNameLower K ≠ n)
  ∨ ∃ l1 J l2,
      l = l1 ++ J :: l2 ∧ (∀ K, K ∈ l1 → Item.getNameLower K ≠ n)
      ∧ Item.getNameLower J = n
      ∧ Room.find_first n l = Some J
      ∧ Room.remove_first n l = Some (J, l1 ++ l2).
Proof.
  induction l as [|K l IH]; simpl.
  - left. repeat split. intros K HK. by apply elem_of_nil in HK.
  - destruct (String.eqb_spec (Item.getNameLower K) n) as [Heq|Hne].
    + right. exists [], K, l. repeat split; try done.
      intros K' HK'. by apply elem_of_nil in HK'.
    + destruct IH as [(-> & -> & Hnone)|(l1 & J & l2 & -> & Hl1 & HJ & Hf & Hr)].
      * left. repeat split. intros K' [->|HK']%elem_of_cons; auto.
      * right. exists (K :: l1), J, l2. rewrite Hf, Hr. repeat split; try done.
        intros K' [->|HK']%elem_of_cons; auto.
Qed.

Lemma with_items_same r : Spec.with_items r (Room.items r) = r.
Proof. by destruct r. Qed.

(** C6, as the code has it: [removeItem(n)] removes and returns the first
    item, in insertion order, whose lowercased name is [n], and returns the
    null pointer when there is none; for an item [I] added to a room in
    which no item has [I]'s lowercased name, [I] is the item returned, the
    room is afterwards as it was before [I] was added (so [I] is not in
    it), and a second [removeItem] returns the null pointer. *)
Theorem removeItem_spec (R : Room.t) (n : string) :
  (∀ l1 J l2,
      Room.items R = l1 ++ J :: l2 →
      (∀ K, K ∈ l1 → Item.getNameLower K ≠ n) → Item.getNameLower J = n →
      Room.removeItem n R = (Some J, Spec.with_items R (l1 ++ l2)))
  ∧ ((∀ K, K ∈ Room.items R → Item.getNameLower K ≠ n) →
     Room.removeItem n R = (None, R))
  ∧ (∀ I,
        Item.getNameLower I = n →
        (∀ K, K ∈ Room.items R → Item.getNameLower K ≠ n) →
        Room.removeItem n (Room.addItem (Some I) R) = (Some I, R)
        ∧ (I ∉ Room.items R)
        ∧ Room.removeItem n R = (None, R)).
Proof.
  assert (Hnone : (∀ K, K ∈ Room.items R → Item.getNameLower K ≠ n) →
                  Room.removeItem n R = (None, R)).
  { intros H. unfold Room.removeItem.
    by destruct (find_first_none n (Room.items R) H) as [_ ->]. }
  split; [|split; [exact Hnone|]].
  - intros l1 J l2 Hitems Hl1 HJ. unfold Room.removeItem. rewrite Hitems.
    by destruct (find_first_split n l1 J l2 Hl1 HJ) as [_ ->].
  - intros I HI HR. split; [|split; [|by apply Hnone]].
    + unfold Room.removeItem, Room.addItem. simpl.
      destruct (find_first_split n (Room.items R) I [] HR HI) as [_ ->].
      rewrite app_nil_r. by destruct R.
    + intros Hin. by apply (HR I Hin).
Qed.

Lemma removeItem_spec_witness :
  let I := World.torch in
  let R := Room.addItem (Some World.bed) (Room.new "Damp Cell" "") in
  Room.removeItem "dim torch" (Room.addItem (Some I) R) = (Some I, R)
  ∧ (I ∉ Room.items R)
  ∧ Room.removeItem "dim torch" R = (None, R).
Proof.
  intros I R.
  refine (proj2 (proj2 (removeItem_spec R "dim torch")) I _ _).
  - reflexivity.
  - intros K HK. apply list_elem_of_singleton in HK. subst K. discriminate.
Defined.

(** C6 as stated fails when the room already holds an item of the same
    lowercased name: the older item is the one removed, [I] stays in the
    room, and the second call returns [I]. *)
Lemma removeItem_shadowed :
  let older := Item.mk "Key" "An old key." true in
  let I := Item.mk "key" "A new key." true in
  let R := Room.addItem (Some I)
             (Room.addItem (Some older) (Room.new "Small Study" "")) in
  let first_call := Room.removeItem (Item.getNameLower I) R in
  let second_call := Room.removeItem (Item.getNameLower I) (snd first_call) in
  fst first_call = Some older
  ∧ I ∈ Room.items (snd first_call)
  ∧ fst second_call = Some I.
Proof.
  vm_compute. repeat split. apply list_elem_of_singleton. reflexivity.
Qed.

End Items.

(** ** Player: take *)

Section Take.

Local Abbreviation not_seen itemName :=
  ["You don't see a '" +:+ itemName +:+ "' here to take." +:+ Text.endl].
Local Abbreviation not_takeable J :=
  ["You can't take the " +:+ Item.name J +:+ "." +:+ Text.endl].
Local Abbreviation picked_up J :=
  ["You picked up the " +:+ Item.name J +:+ "." +:+ Text.endl].
Local Abbreviation went_wrong itemName :=
  ["Something went wrong trying to take the " +:+ itemName +:+ "."
   +:+ Text.endl].

(** C3: [take] on a name that no item of the current room has (lower case
    compared with lower case) reports that nothing of that name is seen;
    when the first item of that name is not takeable it reports that it
    cannot be taken; in both cases the rooms and the player are as before.
    When the first item of that name is takeable, that one item leaves the
    room's list, is appended to the inventory, and the pickup is
    confirmed. *)
Theorem take_spec itemName rooms p here r :
  Player.currentLocation p = Some here → rooms !! here = Some r →
  ((∀ K, K ∈ Room.items r →
         Item.getNameLower K ≠ Text.lowercase itemName) →
   Player.take itemName rooms p = Some (p, rooms, not_seen itemName))
  ∧ (∀ l1 J l2,
        Room.items r = l1 ++ J :: l2 →
        (∀ K, K ∈ l1 → Item.getNameLower K ≠ Text.lowercase itemName) →
        Item.getNameLower J = Text.lowercase itemName →
        (Item.takeable J = false →
         Player.take itemName rooms p = Some (p, rooms, not_takeable J))
        ∧ (Item.takeable J = true →
           Player.take itemName rooms p =
             Some (Player.mk (Some here) (Player.inventory p ++ [J]),
                   <[here := Spec.with_items r (l1 ++ l2)]> rooms,
                   picked_up J))).
Proof.
  intros Hloc Hr. unfold Player.take. rewrite Hloc, Hr. simpl. split.
  - intros Hnone. unfold Room.findItem.
    by destruct (find_first_none _ _ Hnone) as [-> _].
  - intros l1 J l2 Hitems Hl1 HJ. unfold Room.findItem, Room.removeItem.
    rewrite Hitems.
    destruct (find_first_split _ l1 J l2 Hl1 HJ) as [-> ->].
    split; intros ->; done.
Qed.

Lemma take_spec_witness :
  let g := (Spec.fresh []).1 in
  ∃ cell,
    Game.allRooms g !! World.start_cell = Some cell
    ∧ Room.items cell = [World.torch; World.bed]
    ∧ Player.take "DIM TORCH" (Game.allRooms g) (Game.player g) =
        Some (Player.mk (Some World.start_cell) [World.torch],
              <[World.start_cell := Spec.with_items cell [World.bed]]>
                (Game.allRooms g),
              picked_up World.torch)
    ∧ Player.take "Straw Bed" (Game.allRooms g) (Game.player g) =
        Some (Game.player g, Game.allRooms g, not_takeable World.bed)
    ∧ Player.take "torch" (Game.allRooms g) (Game.player g) =
        Some (Game.player g, Game.allRooms g, not_seen "torch").
Proof.
  intros g.
  destruct (Game.allRooms g !! World.start_cell) as [cell|] eqn:Hcell;
    [|vm_compute in Hcell; discriminate].
  assert (Hitems : Room.items cell = [World.torch; World.bed]).
  { vm_compute in Hcell. injection Hcell as <-. reflexivity. }
  exists cell. split; [reflexivity|]. split; [exact Hitems|].
  split; [|split].
  - refine (proj2 (proj2 (take_spec "DIM TORCH" (Game.allRooms g)
                            (Game.player g) World.start_cell cell
                            eq_refl Hcell)
                     [] World.torch [World.bed] Hitems _ eq_refl) eq_refl).
    intros K HK. by apply elem_of_nil in HK.
  - refine (proj1 (proj2 (take_spec "Straw Bed" (Game.allRooms g)
                            (Game.player g) World.start_cell cell
                            eq_refl Hcell)
                     [World.torch] World.bed [] Hitems _ eq_refl) eq_refl).
    intros K HK. apply list_elem_of_singleton in HK. subst K. discriminate.
  - refine (proj1 (take_spec "torch" (Game.allRooms g) (Game.player g)
                     World.start_cell cell eq_refl Hcell) _).
    rewrite Hitems. intros K HK.
    apply elem_of_cons in HK as [->|HK]; [discriminate|].
    apply list_elem_of_singleton in HK. subst K. discriminate.
Defined.

(** C10: in [take], once [findItem] has returned a takeable item,
    [removeItem] with the same lowercased name returns that same item, and
    the call ends in the pickup; no call of [take] ever writes the
    "Something went wrong" message. *)
Theorem take_never_goes_wrong itemName rooms p here r itemToTake :
  Player.currentLocation p = Some here → rooms !! here = Some r →
  Room.findItem (Text.lowercase itemName) r = Some itemToTake →
  Item.takeable itemToTake = true →
  (∃ r', Room.removeItem (Text.lowercase itemName) r = (Some itemToTake, r'))
  ∧ (∃ rooms',
        Player.take itemName rooms p =
          Some (Player.mk (Some here) (Player.inventory p ++ [itemToTake]),
                rooms', picked_up itemToTake))
  ∧ (∀ name' rooms0 p0 result,
        Player.take name' rooms0 p0 = Some result →
        snd result ≠ went_wrong name').
Proof.
  intros Hloc Hr Hfind Htake.
  assert (Hremove : ∀ n room found,
             Room.findItem n room = Some found →
             ∃ room', Room.removeItem n room = (Some found, room')).
  { intros n room found. unfold Room.findItem, Room.removeItem.
    destruct (find_first_cases n (Room.items room))
      as [(-> & _)|(l1 & J & l2 & _ & _ & _ & -> & ->)]; [done|].
    intros [= ->]. eauto. }
  split; [by apply Hremove|]. split.
  - destruct (Hremove _ _ _ Hfind) as [r' Hr'].
    unfold Player.take. rewrite Hloc, Hr. simpl.
    rewrite Hfind, Htake, Hr'. simpl. eauto.
  - intros name' rooms0 p0 result. unfold Player.take.
    destruct (Player.currentLocation p0) as [here0|]; [|by intros [= <-]].
    destruct (rooms0 !! here0) as [r0|]; [simpl|done].
    destruct (Room.findItem (Text.lowercase name') r0) as [found|] eqn:Hfound;
      [|by intros [= <-]].
    destruct (negb (Item.takeable found)); [by intros [= <-]|].
    destruct (Hremove _ _ _ Hfound) as [r0' ->].
    by intros [= <-].
Qed.

Lemma take_never_goes_wrong_witness :
  let g := (Spec.fresh []).1 in
  ∃ cell,
    Game.allRooms g !! World.start_cell = Some cell
    ∧ Room.findItem (Text.lowercase "Dim Torch") cell = Some World.torch
    ∧ Item.takeable World.torch = true
    ∧ (∃ r', Room.removeItem (Text.lowercase "Dim Torch") cell
             = (Some World.torch, r'))
    ∧ (∃ rooms',
          Player.take "Dim Torch" (Game.allRooms g) (Game.player g) =
            Some (Player.mk (Some World.start_cell) [World.torch],
                  rooms', picked_up World.torch))
    ∧ (∀ name' rooms0 p0 result,
          Player.take name' rooms0 p0 = Some result →
          snd result ≠ went_wrong name').
Proof.
  intros g.
  destruct (Game.allRooms g !! World.start_cell) as [cell|] eqn:Hcell;
    [|vm_compute in Hcell; discriminate].
  assert (Hfind : Room.findItem (Text.lowercase "Dim Torch") cell
                  = Some World.torch).
  { vm_compute in Hcell. injection Hcell as <-. reflexivity. }
  exists cell. split; [reflexivity|]. split; [exact Hfind|].
  split; [reflexivity|].
  exact (take_never_goes_wrong "Dim Torch" (Game.allRooms g) (Game.player g)
           World.start_cell cell World.torch eq_refl Hcell Hfind eq_refl).
Defined.

End Take.

(** ** Well-formed arenas *)

Section WellFormed.

Lemma insert_sorted_perm {V} (kv : string * V) l :
  Room.insert_sorted kv l ≡ₚ kv :: l.
Proof.
  induction l as [|kv' l IH]; simpl; [done|].
  destruct (String.leb kv.1 kv'.1); [done|].
  rewrite IH. apply perm_swap.
Qed.

Lemma in_key_order_perm {V} (m : gmap string V) :
  Room.in_key_order m ≡ₚ map_to_list m.
Proof.
  unfold Room.in_key_order.
  induction (map_to_list m) as [|kv l IH]; simpl; [done|].
  by rewrite insert_sorted_perm, IH.
Qed.

(** In a well-formed arena every room can be described. *)
Lemma look_total rooms r :
  Spec.well_formed rooms → r ∈ rooms → is_Some (Room.look rooms r).
Proof.
  intros Hwf Hr. unfold Spec.well_formed in Hwf.
  rewrite Forall_forall in Hwf. specialize (Hwf r Hr).
  assert (Hlines : is_Some (mapM (Room.exit_line rooms)
                              (Room.in_key_order (Room.exits r)))).
  { apply mapM_is_Some_2. rewrite in_key_order_perm.
    apply Forall_forall. intros [d target] Hd.
    apply elem_of_map_to_list in Hd. specialize (Hwf d target Hd).
    unfold Spec.valid in Hwf. simpl in Hwf. unfold Room.exit_line. simpl.
    destruct target as [target|]; simpl in *; [|by destruct Hwf].
    destruct (rooms !! target); simpl; [eauto|by destruct Hwf]. }
  unfold Room.look.
  destruct (Room.in_key_order (Room.exits r)) as [|e es]; simpl; [eauto|].
  destruct Hlines as [lines Hlines]. simpl in Hlines.
  rewrite Hlines. simpl. eauto.
Qed.

Lemma getExit_valid rooms r direction target :
  Spec.well_formed rooms → r ∈ rooms →
  Room.getExit r direction = Some target → is_Some (rooms !! target).
Proof.
  intros Hwf Hr. unfold Spec.well_formed in Hwf.
  rewrite Forall_forall in Hwf. specialize (Hwf r Hr).
  unfold Room.getExit.
  destruct (Room.exits r !! direction) as [ptr|] eqn:Hptr; [|done].
  intros ->. specialize (Hwf direction (Some target) Hptr).
  exact Hwf.
Qed.

(** Changing the items of a room changes no exit. *)
Lemma well_formed_insert rooms here r l :
  Spec.well_formed rooms → rooms !! here = Some r →
  Spec.well_formed (<[here := Spec.with_items r l]> rooms).
Proof.
  intros Hwf Hr.
  assert (Hvalid : ∀ ptr, Spec.valid rooms ptr →
                          Spec.valid (<[here := Spec.with_items r l]> rooms) ptr).
  { intros [target|]; unfold Spec.valid; simpl; [|done].
    intros Htarget. destruct (decide (here = target)) as [->|Hne].
    - rewrite list_lookup_insert_eq; [eauto|]. by eapply lookup_lt_Some.
    - by rewrite list_lookup_insert_ne. }
  unfold Spec.well_formed in *. rewrite Forall_forall in Hwf.
  apply Forall_forall. intros r' Hr'.
  assert (Hexits : ∃ r0, r0 ∈ rooms ∧ Room.exits r' = Room.exits r0).
  { apply list_elem_of_lookup in Hr' as [i Hi].
    destruct (decide (here = i)) as [->|Hne].
    - rewrite list_lookup_insert_eq in Hi by (by eapply lookup_lt_Some).
      injection Hi as <-. exists r. split; [|done].
      apply list_elem_of_lookup. eauto.
    - rewrite list_lookup_insert_ne in Hi by done.
      exists r'. split; [|done]. apply list_elem_of_lookup. eauto. }
  destruct Hexits as (r0 & Hr0 & ->).
  intros d target Hd. apply Hvalid. by apply (Hwf r0 Hr0 d target).
Qed.

(** [createWorld] wires every exit to a room of the arena. *)
Lemma fresh_well_formed lines :
  Spec.well_formed (Game.allRooms (Spec.fresh lines).1).
Proof.
  change (Game.allRooms (Spec.fresh lines).1)
    with (Game.allRooms (Spec.fresh []).1).
  apply (bool_decide_unpack _). vm_compute. exact I.
Qed.

End WellFormed.

(** ** Player: go *)

Section Go.

(** Through an exit of a well-formed arena the player arrives, and sees the
    room arrived in. *)
Lemma go_moves direction rooms p here r target :
  Spec.well_formed rooms →
  Player.currentLocation p = Some here → rooms !! here = Some r →
  Room.getExit r (Text.lowercase direction) = Some target →
  is_Some (rooms !! target)
  ∧ ∃ view,
      Player.go direction rooms p =
        Some (Player.mk (Some target) (Player.inventory p),
              ["You move " +:+ Text.lowercase direction +:+ "..."
               +:+ Text.endl +:+ Text.endl] ++ view)
      ∧ Player.look rooms (Player.mk (Some target) (Player.inventory p))
        = Some view.
Proof.
  intros Hwf Hloc Hr Hexit. unfold Player.go. rewrite Hloc, Hr. simpl.
  rewrite Hexit.
  assert (Hin : r ∈ rooms) by (apply list_elem_of_lookup; eauto).
  destruct (getExit_valid rooms r _ target Hwf Hin Hexit) as [r' Hr'].
  assert (Hin' : r' ∈ rooms) by (apply list_elem_of_lookup; eauto).
  destruct (look_total rooms r' Hwf Hin') as [view Hview].
  split; [eauto|].
  exists view. unfold Player.moveTo, Player.look. simpl.
  rewrite Hr'. simpl. rewrite Hview. done.
Qed.

(** Without an exit the player stays. *)
Lemma go_stays direction rooms p here r :
  Player.currentLocation p = Some here → rooms !! here = Some r →
  Room.getExit r (Text.lowercase direction) = None →
  Player.go direction rooms p =
    Some (p, ["You can't go that way." +:+ Text.endl]).
Proof.
  intros Hloc Hr Hexit. unfold Player.go. rewrite Hloc, Hr. simpl.
  by rewrite Hexit.
Qed.

(** C4: [go] lowercases the direction and asks the current room for that
    exit.  Without an exit it writes "You can't go that way." and the
    player is as before; with an exit, the player stands in exactly the
    room the exit leads to, the inventory is as before, and after the
    "You move" line comes the description of the new room, the one an
    explicit [look] gives there. *)
Theorem go_spec direction rooms p here r :
  Spec.well_formed rooms →
  Player.currentLocation p = Some here → rooms !! here = Some r →
  (Room.getExit r (Text.lowercase direction) = None →
   Player.go direction rooms p =
     Some (p, ["You can't go that way." +:+ Text.endl]))
  ∧ (∀ target,
        Room.getExit r (Text.lowercase direction) = Some target →
        ∃ view,
          Player.go direction rooms p =
            Some (Player.mk (Some target) (Player.inventory p),
                  ["You move " +:+ Text.lowercase direction +:+ "..."
                   +:+ Text.endl +:+ Text.endl] ++ view)
          ∧ Player.look rooms (Player.mk (Some target) (Player.inventory p))
            = Some view).
Proof.
  intros Hwf Hloc Hr. split.
  - by apply (go_stays direction rooms p here r).
  - intros target Hexit.
    by destruct (go_moves direction rooms p here r target Hwf Hloc Hr Hexit).
Qed.

Lemma go_spec_witness :
  let g := (Spec.fresh []).1 in
  ∃ cell,
    Game.allRooms g !! World.start_cell = Some cell
    ∧ Room.getExit cell (Text.lowercase "North") = Some World.corridor_1
    ∧ Room.getExit cell (Text.lowercase "South") = None
    ∧ Player.go "South" (Game.allRooms g) (Game.player g) =
        Some (Game.player g, ["You can't go that way." +:+ Text.endl])
    ∧ ∃ view,
        Player.go "North" (Game.allRooms g) (Game.player g) =
          Some (Player.mk (Some World.corridor_1) [],
                ["You move north..." +:+ Text.endl +:+ Text.endl] ++ view)
        ∧ Player.look (Game.allRooms g) (Player.mk (Some World.corridor_1) [])
          = Some view.
Proof.
  intros g.
  destruct (Game.allRooms g !! World.start_cell) as [cell|] eqn:Hcell;
    [|vm_compute in Hcell; discriminate].
  exists cell.
  assert (Hnorth : Room.getExit cell (Text.lowercase "North")
                   = Some World.corridor_1).
  { vm_compute in Hcell. injection Hcell as <-. vm_compute. reflexivity. }
  assert (Hsouth : Room.getExit cell (Text.lowercase "South") = None).
  { vm_compute in Hcell. injection Hcell as <-. vm_compute. reflexivity. }
  split; [reflexivity|]. split; [exact Hnorth|]. split; [exact Hsouth|].
  split.
  - exact (proj1 (go_spec "South" (Game.allRooms g) (Game.player g)
                    World.start_cell cell (fresh_well_formed [])
                    eq_refl Hcell) Hsouth).
  - exact (proj2 (go_spec "North" (Game.allRooms g) (Game.player g)
                    World.start_cell cell (fresh_well_formed [])
                    eq_refl Hcell) World.corridor_1 Hnorth).
Defined.

End Go.

(** ** createWorld: the exits *)

Section Wiring.

Lemma addExit_addExit R D X Y :
  Room.addExit D Y (Room.addExit D X R) = Room.addExit D Y R.
Proof. unfold Room.addExit. simpl. by rewrite insert_insert_eq. Qed.

(** C8: a second [addExit] for the same direction replaces the first, and
    [getExit] then returns the later target; after [createWorld] the exits
    of every room are the last assignment made for each direction.  The
    Narrow Corridor leads north to the Guard Room, not to the Main Hall,
    and south to the Damp Cell. *)
Theorem addExit_last_write_wins :
  (∀ R D X Y,
      Room.addExit D Y (Room.addExit D X R) = Room.addExit D Y R
      ∧ Room.getExit (Room.addExit D Y (Room.addExit D X R))
          (Text.lowercase D) = Y)
  ∧ (let rooms := Game.allRooms (Spec.fresh []).1 in
     map Room.exits rooms = map Spec.final_exits (seq 0 (length rooms))
     ∧ (Room.name <$> rooms !! World.corridor_1) = Some "Narrow Corridor"
     ∧ (Room.name <$> rooms !! World.guard_room) = Some "Guard Room"
     ∧ (Room.name <$> rooms !! World.main_hall) = Some "Main Hall"
     ∧ (Room.exits <$> rooms !! World.corridor_1) =
         Some {[ "north" := Some World.guard_room;
                 "south" := Some World.start_cell ]}
     ∧ ((λ r, Room.getExit r "north") <$> rooms !! World.corridor_1) =
         Some (Some World.guard_room)
     ∧ Some World.guard_room ≠ Some World.main_hall).
Proof.
  split.
  - intros R D X Y. split; [apply addExit_addExit|].
    rewrite addExit_addExit. apply getExit_addExit_same.
  - vm_compute. repeat split; congruence.
Qed.

End Wiring.

(** ** Conservation of the items *)

Section Conservation.

Lemma all_items_move rooms p here r l1 J l2 :
  rooms !! here = Some r → Room.items r = l1 ++ J :: l2 →
  Spec.all_items (<[here := Spec.with_items r (l1 ++ l2)]> rooms)
    (Player.mk (Player.currentLocation p) (Player.inventory p ++ [J]))
  ≡ₚ Spec.all_items rooms p.
Proof.
  intros Hr Hitems. unfold Spec.all_items. simpl.
  rewrite insert_take_drop by (by eapply lookup_lt_Some).
  rewrite <- (take_drop_middle rooms here r Hr) at 3.
  rewrite !map_app, !concat_app. simpl. rewrite Hitems.
  rewrite <- !app_assoc. apply Permutation_app_head.
  apply Permutation_app_head. simpl.
  rewrite !app_assoc. by rewrite <- Permutation_cons_append.
Qed.

(** One [take] moves at most one item, from a room to the inventory. *)
Lemma take_conserves itemName rooms p p' rooms' out :
  Player.take itemName rooms p = Some (p', rooms', out) →
  Spec.all_items rooms' p' ≡ₚ Spec.all_items rooms p
  ∧ Player.currentLocation p' = Player.currentLocation p
  ∧ length rooms' = length rooms.
Proof.
  unfold Player.take.
  destruct (Player.currentLocation p) as [here|] eqn:Hloc;
    [|by intros [= <- <- <-]].
  destruct (rooms !! here) as [r|] eqn:Hr; [simpl|done].
  unfold Room.findItem, Room.removeItem.
  destruct (find_first_cases (Text.lowercase itemName) (Room.items r))
    as [(-> & _)|(l1 & J & l2 & Hitems & _ & _ & -> & ->)];
    [by intros [= <- <- <-]|].
  destruct (negb (Item.takeable J)); [by intros [= <- <- <-]|].
  intros [= <- <- <-]. simpl. rewrite length_insert. split; [|done].
  rewrite <- Hloc. by apply all_items_move.
Qed.

(** [take] dereferences nothing but the current room. *)
Lemma take_total itemName rooms p :
  (∀ here, Player.currentLocation p = Some here → is_Some (rooms !! here)) →
  is_Some (Player.take itemName rooms p).
Proof.
  intros Hvalid. unfold Player.take.
  destruct (Player.currentLocation p) as [here|]; [|eauto].
  destruct (Hvalid here eq_refl) as [r ->]. simpl.
  destruct (Room.findItem _ r) as [found|]; [|eauto].
  destruct (negb (Item.takeable found)); [eauto|].
  destruct (Room.removeItem _ r) as [[removed|] r']; eauto.
Qed.

Lemma takes_conserve names :
  ∀ rooms p,
    (∀ here, Player.currentLocation p = Some here → is_Some (rooms !! here)) →
    ∃ p' rooms',
      Spec.takes names rooms p = Some (p', rooms')
      ∧ Spec.all_items rooms' p' ≡ₚ Spec.all_items rooms p.
Proof.
  induction names as [|n names IH]; intros rooms p Hvalid; simpl; [eauto|].
  destruct (take_total n rooms p Hvalid) as [[[p1 rooms1] out] Htake].
  rewrite Htake. simpl.
  destruct (take_conserves _ _ _ _ _ _ Htake) as (Hperm & Hloc & Hlen).
  destruct (IH rooms1 p1) as (p' & rooms' & Htakes & Hperm').
  { intros here Hhere. rewrite Hloc in Hhere.
    apply lookup_lt_is_Some. rewrite Hlen.
    apply lookup_lt_is_Some. by apply Hvalid. }
  exists p', rooms'. split; [done|]. by rewrite Hperm'.
Qed.

(** C1: whatever names a sequence of [take] commands asks for, starting
    from the world as [createWorld] builds it, every [take] returns, and
    afterwards the items of all rooms together with the inventory are the
    twenty items created, each of them in one place only.  (Every prefix of
    a sequence of commands is such a sequence, so this holds after each
    command.) *)
Theorem takes_conserve_created_items (names : list string) :
  let g := (Spec.fresh []).1 in
  ∃ p rooms,
    Spec.takes names (Game.allRooms g) (Game.player g) = Some (p, rooms)
    ∧ Spec.all_items rooms p ≡ₚ World.created_items
    ∧ NoDup (Spec.all_items rooms p).
Proof.
  intros g.
  destruct (takes_conserve names (Game.allRooms g) (Game.player g))
    as (p & rooms & Htakes & Hperm).
  { intros here [= <-]. vm_compute. eauto. }
  assert (Hfresh : Spec.all_items (Game.allRooms g) (Game.player g)
                   ≡ₚ World.created_items).
  { apply (bool_decide_unpack _). vm_compute. exact I. }
  assert (Hnodup : NoDup World.created_items).
  { apply (bool_decide_unpack _). vm_compute. exact I. }
  exists p, rooms. split; [done|].
  rewrite Hperm, Hfresh. done.
Qed.

End Conservation.

(** ** The interpreter loop *)

Section Interpreter.

Local Abbreviation prompt := (Text.endl +:+ "> ").
Local Abbreviation question := "Are you sure you want to quit? (yes/no): ".
Local Abbreviation goodbye :=
  (Text.endl +:+ "Goodbye! Thanks for playing." +:+ Text.endl).
Local Abbreviation continuing := ("Okay, continuing game." +:+ Text.endl).

Lemma is_quit_cases verb :
  Game.is_quit verb = true → verb = "quit" ∨ verb = "exit".
Proof.
  unfold Game.is_quit. intros [H|H]%orb_true_iff;
    apply String.eqb_eq in H; auto.
Qed.

(** Once [gameOver] is set the loop does nothing more. *)
Lemma loop_gameOver fuel g c :
  Game.gameOver g = true → Game.loop fuel g c = Finished (g, c).
Proof. intros H. destruct fuel; simpl; by rewrite H. Qed.

(** The pass of the loop that reads a quit command and its answer. *)
Lemma iteration_quit g out err line answer rest :
  Game.is_quit (Game.parseInput line).1 = true →
  Game.iteration g (Console.mk (line :: answer :: rest) out err) =
    if Game.is_yes (Text.lowercase answer)
    then Some (true, Game.mk (Game.player g) (Game.allRooms g) true,
               Console.mk rest (out ++ [prompt; question; goodbye]) err)
    else Some (true, g,
               Console.mk rest (out ++ [prompt; question; continuing]) err).
Proof.
  intros Hquit. unfold Game.iteration. simpl.
  destruct line as [|ch line]; [done|].
  cbn [Text.empty].
  destruct (Game.parseInput (String ch line)) as [verb noun]. simpl in Hquit.
  assert (Hverb : negb (Text.empty verb) = true).
  { by destruct (is_quit_cases verb Hquit) as [-> | ->]. }
  rewrite Hverb. unfold Game.handleCommand. rewrite Hquit. simpl.
  destruct (Game.is_yes (Text.lowercase answer)); simpl;
    unfold Console.print; simpl; by rewrite <- !app_assoc.
Qed.

(** C5: a line whose verb is quit or exit makes the interpreter ask for
    confirmation.  When the next line, lowercased, is yes or y, the loop
    ends with [gameOver] set and the rest of the input unread; on any other
    answer the game is as before and the loop goes on with the rest of the
    input, exactly as it would from there.  A game that is over stays
    over: the loop returns it untouched. *)
Theorem quit_flow g out err line answer rest fuel :
  Game.gameOver g = false →
  Game.is_quit (Game.parseInput line).1 = true →
  (Game.is_yes (Text.lowercase answer) = true →
   Game.loop (S fuel) g (Console.mk (line :: answer :: rest) out err) =
     Finished (Game.mk (Game.player g) (Game.allRooms g) true,
               Console.mk rest (out ++ [prompt; question; goodbye]) err))
  ∧ (Game.is_yes (Text.lowercase answer) = false →
     Game.loop (S fuel) g (Console.mk (line :: answer :: rest) out err) =
       Game.loop fuel g
         (Console.mk rest (out ++ [prompt; question; continuing]) err))
  ∧ (∀ fuel' g' c',
        Game.gameOver g' = true → Game.loop fuel' g' c' = Finished (g', c')).
Proof.
  intros Hrunning Hquit.
  split; [|split; [|intros; by apply loop_gameOver]].
  - intros Hyes. cbn [Game.loop]. rewrite Hrunning.
    rewrite iteration_quit by done. rewrite Hyes.
    by apply loop_gameOver.
  - intros Hno. cbn [Game.loop]. rewrite Hrunning.
    rewrite iteration_quit by done. by rewrite Hno.
Qed.

Lemma quit_flow_witness :
  let g := (Spec.fresh []).1 in
  Game.loop 3 g (Console.mk ["quit"; "no"; "take dim torch"] [] []) =
    Game.loop 2 g
      (Console.mk ["take dim torch"] [prompt; question; continuing] [])
  ∧ Game.loop 3 g (Console.mk ["EXIT"; "YES"; "take dim torch"] [] []) =
      Finished (Game.mk (Game.player g) (Game.allRooms g) true,
                Console.mk ["take dim torch"]
                  [prompt; question; goodbye] []).
Proof.
  intros g. split.
  - exact (proj1 (proj2 (quit_flow g [] [] "quit" "no" ["take dim torch"] 2
                           eq_refl eq_refl)) eq_refl).
  - exact (proj1 (quit_flow g [] [] "EXIT" "YES" ["take dim torch"] 2
                    eq_refl eq_refl) eq_refl).
Defined.

(** After quit and no, the next command is carried out. *)
Example quit_no_then_take :
  match Game.run (Spec.fresh []).1
          (Console.mk ["quit"; "no"; "take dim torch"] [] []) with
  | Finished (g, c) =>
      Game.gameOver g = false
      ∧ Player.inventory (Game.player g) = [World.torch]
      ∧ Console.cin c = []
  | _ => False
  end.
Proof. vm_compute. done. Qed.

Example quit_yes_stops :
  match Game.run (Spec.fresh []).1
          (Console.mk ["quit"; "y"; "take dim torch"] [] []) with
  | Finished (g, c) =>
      Game.gameOver g = true
      ∧ Player.inventory (Game.player g) = []
      ∧ Console.cin c = ["take dim torch"]
  | _ => False
  end.
Proof. vm_compute. done. Qed.

(** *** Blank lines *)

Lemma skip_ws_whitespace line :
  Spec.all_chars Text.isspace line = true → Text.skip_ws line = EmptyString.
Proof.
  induction line as [|ch line IH]; simpl; [done|].
  intros [-> Hline]%andb_true_iff. auto.
Qed.

Lemma drop_spaces_blank line :
  Text.drop_spaces line = EmptyString ↔
  Spec.all_chars (Ascii.eqb " ") line = true.
Proof.
  induction line as [|ch line IH]; [done|].
  cbn [Text.drop_spaces Spec.all_chars].
  rewrite (Ascii.eqb_sym " " ch).
  destruct (Ascii.eqb ch " "); simpl; [done|]. split; discriminate.
Qed.

Lemma space_isspace line :
  Spec.all_chars (Ascii.eqb " ") line = true →
  Spec.all_chars Text.isspace line = true.
Proof.
  induction line as [|ch line IH]; [done|].
  cbn [Spec.all_chars].
  intros [Hch Hline]%andb_true_iff. apply Ascii.eqb_eq in Hch. subst ch.
  rewrite IH by done. reflexivity.
Qed.

(** A line made of spaces only (the empty line is one) is passed over in
    silence: the prompt is all that is written. *)
Lemma iteration_blank g out err line rest :
  Spec.all_chars (Ascii.eqb " ") line = true →
  Game.iteration g (Console.mk (line :: rest) out err) =
    Some (true, g, Console.mk rest (out ++ [prompt]) err).
Proof.
  intros Hblank. unfold Game.iteration. simpl.
  destruct (Text.empty line) eqn:Hempty; [done|].
  unfold Game.parseInput.
  rewrite (skip_ws_whitespace line (space_isspace line Hblank)). simpl.
  by rewrite (proj2 (drop_spaces_blank line) Hblank).
Qed.

(** A line of whitespace that is not all spaces is answered with a
    complaint. *)
Lemma iteration_whitespace g out err line rest :
  Spec.all_chars Text.isspace line = true →
  Spec.all_chars (Ascii.eqb " ") line = false →
  Game.iteration g (Console.mk (line :: rest) out err) =
    Some (true, g,
          Console.mk rest
            (out ++ [prompt;
                     "Please enter a valid command. Try 'help'." +:+ Text.endl])
            err).
Proof.
  intros Hws Hnot. unfold Game.iteration. simpl.
  destruct line as [|ch line]; [done|]. cbn [Text.empty].
  unfold Game.parseInput. rewrite (skip_ws_whitespace _ Hws). simpl negb.
  destruct (Text.drop_spaces (String ch line)) eqn:Hdrop.
  - apply drop_spaces_blank in Hdrop. congruence.
  - simpl in Hdrop. simpl. rewrite Hdrop. simpl.
    unfold Console.print. simpl. by rewrite <- app_assoc.
Qed.

(** C7 on a line holding one tab: the line is whitespace only, and the
    loop answers it with "Please enter a valid command. Try 'help'."
    instead of passing it over in silence.  The game itself is
    unchanged. *)
Theorem tab_line_is_answered g out err rest :
  let line := String "009" EmptyString in
  Spec.all_chars Text.isspace line = true
  ∧ Game.iteration g (Console.mk (line :: rest) out err) =
      Some (true, g,
            Console.mk rest
              (out ++ [prompt;
                       "Please enter a valid command. Try 'help'."
                       +:+ Text.endl])
              err).
Proof.
  intros line. split; [reflexivity|].
  by apply iteration_whitespace.
Qed.

End Interpreter.

(** ** The whole run: it ends, and it keeps the items *)

Section Run.

Local Abbreviation items_of g :=
  (Spec.all_items (Game.allRooms g) (Game.player g)).

Lemma player_look_total g : Spec.sound g →
  is_Some (Player.look (Game.allRooms g) (Game.player g)).
Proof.
  intros [Hwf Hloc]. unfold Player.look.
  destruct (Player.currentLocation (Game.player g)) as [here|]; [|eauto].
  destruct (Hloc here eq_refl) as [r Hr]. rewrite Hr. simpl.
  apply look_total; [done|]. apply list_elem_of_lookup. eauto.
Qed.

Lemma player_lookAt_total g noun : Spec.sound g →
  is_Some (Player.lookAt noun (Game.allRooms g) (Game.player g)).
Proof.
  intros [Hwf Hloc]. unfold Player.lookAt.
  destruct (Room.find_first _ (Player.inventory (Game.player g))); [eauto|].
  destruct (Player.currentLocation (Game.player g)) as [here|]; [|eauto].
  destruct (Hloc here eq_refl) as [r Hr]. rewrite Hr. simpl.
  destruct (Room.findItem _ r); eauto.
Qed.

Lemma player_go_sound g noun : Spec.sound g →
  ∃ p out,
    Player.go noun (Game.allRooms g) (Game.player g) = Some (p, out)
    ∧ Player.inventory p = Player.inventory (Game.player g)
    ∧ Spec.sound (Game.mk p (Game.allRooms g) (Game.gameOver g)).
Proof.
  intros [Hwf Hloc].
  destruct (Player.currentLocation (Game.player g)) as [here|] eqn:Hhere.
  2:{ unfold Player.go. rewrite Hhere. eexists _, _. split; [done|].
      split; [done|]. split; [done|]. simpl. intros here. by rewrite Hhere. }
  destruct (Hloc here eq_refl) as [r Hr].
  destruct (Room.getExit r (Text.lowercase noun)) as [target|] eqn:Hexit.
  - destruct (go_moves noun _ _ here r target Hwf Hhere Hr Hexit)
      as (Htarget & view & -> & _).
    eexists _, _. split; [done|]. split; [done|]. split; [done|]. simpl.
    by intros ? [= <-].
  - rewrite (go_stays noun _ _ here r Hhere Hr Hexit).
    eexists _, _. split; [done|]. split; [done|].
    split; [done|]. simpl. intros here'. rewrite Hhere. intros [= <-]. eauto.
Qed.

Lemma take_well_formed itemName rooms p p' rooms' out :
  Spec.well_formed rooms →
  Player.take itemName rooms p = Some (p', rooms', out) →
  Spec.well_formed rooms'.
Proof.
  intros Hwf. unfold Player.take.
  destruct (Player.currentLocation p) as [here|]; [|by intros [= <- <- <-]].
  destruct (rooms !! here) as [r|] eqn:Hr; [simpl|done].
  destruct (Room.findItem _ r) as [found|]; [|by intros [= <- <- <-]].
  destruct (negb (Item.takeable found)); [by intros [= <- <- <-]|].
  unfold Room.removeItem.
  destruct (Room.remove_first _ (Room.items r)) as [[removed rest]|].
  - intros [= <- <- <-]. by apply (well_formed_insert rooms here r rest).
  - intros [= <- <- <-]. rewrite list_insert_id by done. done.
Qed.

Lemma player_take_sound g noun : Spec.sound g →
  ∃ p rooms out,
    Player.take noun (Game.allRooms g) (Game.player g) = Some (p, rooms, out)
    ∧ Spec.all_items rooms p ≡ₚ items_of g
    ∧ Spec.sound (Game.mk p rooms (Game.gameOver g)).
Proof.
  intros [Hwf Hloc].
  destruct (take_total noun _ _ Hloc) as [[[p rooms] out] Htake].
  destruct (take_conserves _ _ _ _ _ _ Htake) as (Hperm & Hsame & Hlen).
  exists p, rooms, out. split; [done|]. split; [done|]. split; simpl.
  - by eapply take_well_formed.
  - intros here Hhere. rewrite Hsame in Hhere.
    apply lookup_lt_is_Some. rewrite Hlen.
    apply lookup_lt_is_Some. by apply Hloc.
Qed.

(** A command returns, reads at most one line, keeps the game sound and
    moves no item out of the game. *)
Lemma handleCommand_sound verb noun g c : Spec.sound g →
  ∃ g' c',
    Game.handleCommand verb noun g c = Some (g', c')
    ∧ Spec.sound g'
    ∧ items_of g' ≡ₚ items_of g
    ∧ length (Console.cin c') <= length (Console.cin c).
Proof.
  intros Hsound. unfold Game.handleCommand.
  destruct (Game.is_quit verb).
  { destruct c as [[|answer rest] out err]; simpl;
      try match goal with
          | |- context [Game.is_yes ?a] => destruct (Game.is_yes a)
          end;
      eexists _, _; (split; [done|]); (split; [exact Hsound|]);
      split; simpl; done || lia. }
  destruct (String.eqb verb "look").
  { assert (Hout : is_Some (if Text.empty noun
                            then Player.look (Game.allRooms g) (Game.player g)
                            else Player.lookAt noun (Game.allRooms g)
                                   (Game.player g))).
    { destruct (Text.empty noun);
        [by apply player_look_total | by apply player_lookAt_total]. }
    destruct Hout as [out ->]. simpl. eexists _, _. done. }
  destruct (_ || _).
  { destruct (Text.empty noun); [eexists _, _; done|].
    destruct (player_go_sound g noun Hsound) as (p & out & -> & Hinv & Hs).
    simpl. eexists _, _. split; [done|]. split; [done|].
    split; [|done]. unfold Spec.all_items. simpl. by rewrite Hinv. }
  destruct (_ || _).
  { destruct (Text.empty noun); [eexists _, _; done|].
    destruct (player_take_sound g noun Hsound)
      as (p & rooms & out & -> & Hperm & Hs).
    simpl. eexists _, _. done. }
  destruct (_ || _); [eexists _, _; done|].
  destruct (_ || _); eexists _, _; done.
Qed.

(** A pass of the loop returns; when it stays in the loop it has read a
    line. *)
Lemma iteration_sound g c : Spec.sound g →
  ∃ continue g' c',
    Game.iteration g c = Some (continue, g', c')
    ∧ Spec.sound g'
    ∧ items_of g' ≡ₚ items_of g
    ∧ (continue = true → length (Console.cin c') < length (Console.cin c)).
Proof.
  intros Hsound. unfold Game.iteration.
  destruct c as [[|inputLine rest] out err]; simpl.
  { eexists _, _, _. done. }
  destruct (Text.empty inputLine).
  { eexists _, _, _. split; [done|]. split; [done|]. split; [done|]. simpl. lia. }
  destruct (Game.parseInput inputLine) as [verb noun].
  destruct (negb (Text.empty verb)).
  - destruct (handleCommand_sound verb noun g
                (Console.mk rest (out ++ [Text.endl +:+ "> "]) err) Hsound)
      as (g' & c' & -> & Hs & Hperm & Hlen).
    simpl in *. eexists _, _, _. split; [done|]. split; [done|].
    split; [done|]. lia.
  - destruct (_ && _); eexists _, _, _;
      (split; [done|]); (split; [done|]); (split; [done|]); simpl; lia.
Qed.

Lemma loop_sound fuel :
  ∀ g c, Spec.sound g → length (Console.cin c) < fuel →
         ∃ g' c', Game.loop fuel g c = Finished (g', c')
                  ∧ Spec.sound g' ∧ items_of g' ≡ₚ items_of g.
Proof.
  induction fuel as [|fuel IH]; intros g c Hsound Hfuel; [lia|].
  cbn [Game.loop]. destruct (Game.gameOver g); [eauto|].
  destruct (iteration_sound g c Hsound)
    as (continue & g1 & c1 & -> & Hs1 & Hperm1 & Hread).
  destruct continue; [|eauto].
  destruct (IH g1 c1 Hs1) as (g' & c' & -> & Hs' & Hperm'); [specialize (Hread eq_refl); lia|].
  exists g', c'. split; [done|]. split; [done|]. by rewrite Hperm'.
Qed.

Lemma fresh_sound lines : Spec.sound (Spec.fresh lines).1.
Proof.
  split; [apply fresh_well_formed|].
  change (Spec.fresh lines).1 with (Spec.fresh []).1.
  intros here [= <-]. vm_compute. eauto.
Qed.

(** Whatever lines are typed, [Game::run] on the world of the constructor
    comes to an end within its iteration budget and without dereferencing
    a bad pointer, and the twenty items are still all there, each once. *)
Theorem run_ends_and_conserves (lines : list string) :
  ∃ g c,
    Game.run (Spec.fresh lines).1 (Spec.fresh lines).2 = Finished (g, c)
    ∧ items_of g ≡ₚ World.created_items
    ∧ NoDup (items_of g).
Proof.
  assert (Hfresh : items_of (Spec.fresh lines).1 ≡ₚ World.created_items).
  { change (Spec.fresh lines).1 with (Spec.fresh []).1.
    apply (bool_decide_unpack _). vm_compute. exact I. }
  assert (Hnodup : NoDup World.created_items).
  { apply (bool_decide_unpack _). vm_compute. exact I. }
  pose proof (fresh_sound lines) as Hsound.
  unfold Game.run.
  change (Game.gameOver (Spec.fresh lines).1) with false. cbv iota.
  destruct (player_look_total _ Hsound) as [view ->].
  destruct (loop_sound
              (S (length (Console.cin (Console.print view (Spec.fresh lines).2))))
              (Spec.fresh lines).1
              (Console.print view (Spec.fresh lines).2) Hsound)
    as (g & c & -> & _ & Hperm); [lia|].
  exists g, c. split; [done|]. rewrite Hperm, Hfresh. done.
Qed.

End Run.

(** * Further properties *)

(** ** binarySearch on any vector, and how long it runs *)

Section BinarySearchMore.

Import P1.
Local Open Scope Z_scope.

(** Whatever the order of the elements, the loop stays inside
    [low .. high] and an index it returns holds the target. *)
Lemma search_sound arr target :
  Z.of_nat (length arr) <= INT_MAX →
  ∀ fuel low high,
    0 <= low → high < Z.of_nat (length arr) → low <= high + 1 →
    high - low + 1 <= Z.of_nat fuel →
    ∃ r, search fuel arr target low high = Some r ∧
         (r = -1 ∨ (low <= r <= high ∧ at_index arr r = Some target)).
Proof.
  intros Hlen. induction fuel as [|fuel IH]; intros low high Hlow Hhigh Hlh Hfuel.
  - exists (-1). simpl. destruct (Z.leb_spec low high); [lia|]. auto.
  - cbn [search]. destruct (Z.leb_spec low high) as [Hle|Hgt]; [|eauto].
    destruct (mid_between low high) as [Hmid Hbetween]; [lia..|].
    cbv zeta in Hmid, Hbetween.
    set (mid := to_int (low + to_int (to_int (high - low) ÷ 2))) in *.
    clearbody mid.
    destruct (at_index_Some arr mid) as [v Hv]; [lia|].
    rewrite Hv. unfold INT_MAX in Hlen.
    destruct (Z.eqb_spec v target) as [->|Hne]; [eauto 6|].
    destruct (v <? target).
    + rewrite (to_int_id (mid + 1)) by (unfold INT_MIN, INT_MAX; lia).
      destruct (IH (mid + 1) high) as (r & Hr & Hcases); [lia..|].
      exists r. split; [done|].
      destruct Hcases as [->|[Hin Hat]]; [by left|right]. split; [lia|done].
    + rewrite (to_int_id (mid - 1)) by (unfold INT_MIN, INT_MAX; lia).
      destruct (IH low (mid - 1)) as (r & Hr & Hcases); [lia..|].
      exists r. split; [done|].
      destruct Hcases as [->|[Hin Hat]]; [by left|right]. split; [lia|done].
Qed.

(** On every vector of at most [INT_MAX] elements, sorted or not,
    [binarySearch] returns, reads no element outside the vector, and
    returns either -1 or an index of the vector that holds the target. *)
Theorem binarySearch_sound arr target :
  Z.of_nat (length arr) <= INT_MAX →
  ∃ r, binarySearch arr target = Some r ∧
       (r = -1 ∨ (0 <= r < Z.of_nat (length arr)
                  ∧ at_index arr r = Some target)).
Proof.
  intros Hlen. unfold binarySearch. rewrite high_of_vector by done.
  destruct (search_sound arr target Hlen (S (length arr)) 0
              (Z.of_nat (length arr) - 1)) as (r & -> & Hr); [lia..|].
  exists r. split; [done|]. destruct Hr as [->|[Hin Hat]]; [by left|right].
  split; [lia|done].
Qed.

Lemma binarySearch_sound_witness :
  ∃ r, binarySearch [9; 2; 7; 2; 5] 7 = Some r ∧
       (r = -1 ∨ (0 <= r < Z.of_nat (length [9; 2; 7; 2; 5])
                  ∧ at_index [9; 2; 7; 2; 5] r = Some 7)).
Proof. apply (binarySearch_sound [9; 2; 7; 2; 5] 7). discriminate. Defined.

(** A budget that was enough stays enough. *)
Lemma search_more_fuel arr target fuel :
  ∀ low high r,
    search fuel arr target low high = Some r →
    search (S fuel) arr target low high = Some r.
Proof.
  induction fuel as [|fuel IH]; intros low high r.
  - cbn [search]. destruct (low <=? high); [done|]. done.
  - intros H. cbn [search] in H. change (search (S (S fuel)) arr target low high)
      with (if low <=? high
            then
              let mid := to_int (low + to_int (to_int (high - low) ÷ 2)) in
              match at_index arr mid with
              | None => None
              | Some v =>
                  if v =? target then Some mid
                  else if v <? target
                       then search (S fuel) arr target (to_int (mid + 1)) high
                       else search (S fuel) arr target low (to_int (mid - 1))
              end
            else Some (-1)).
    destruct (low <=? high); [|done]. cbv zeta in *.
    destruct (at_index arr _) as [v|]; [|done].
    destruct (v =? target); [done|].
    destruct (v <? target); by apply IH.
Qed.

Lemma search_fuel_le arr target low high r fuel fuel' :
  (fuel <= fuel')%nat →
  search fuel arr target low high = Some r →
  search fuel' arr target low high = Some r.
Proof.
  induction 1 as [|fuel' Hle IH]; [done|].
  intros H. by apply search_more_fuel, IH.
Qed.

(** Every pass of the loop at least halves the interval. *)
Lemma search_halves arr target :
  Z.of_nat (length arr) <= INT_MAX →
  ∀ fuel low high,
    0 <= low → high < Z.of_nat (length arr) → low <= high + 1 →
    high - low + 1 < 2 ^ Z.of_nat fuel →
    is_Some (search fuel arr target low high).
Proof.
  intros Hlen. induction fuel as [|fuel IH]; intros low high Hlow Hhigh Hlh Hfuel.
  - simpl in *. destruct (Z.leb_spec low high); [lia|eauto].
  - cbn [search]. destruct (Z.leb_spec low high) as [Hle|Hgt]; [|eauto].
    destruct (mid_between low high) as [Hmid Hbetween]; [lia..|].
    cbv zeta in Hmid, Hbetween.
    set (mid := to_int (low + to_int (to_int (high - low) ÷ 2))) in *.
    clearbody mid.
    destruct (at_index_Some arr mid) as [v Hv]; [lia|].
    rewrite Hv. unfold INT_MAX in Hlen.
    rewrite Nat2Z.inj_succ, Z.pow_succ_r in Hfuel by lia.
    pose proof (Z.div_mod (high - low) 2 ltac:(lia)) as Hdiv.
    pose proof (Z.mod_pos_bound (high - low) 2 ltac:(lia)) as Hrem.
    destruct (v =? target); [eauto|].
    destruct (v <? target).
    + rewrite (to_int_id (mid + 1)) by (unfold INT_MIN, INT_MAX; lia).
      apply IH; lia.
    + rewrite (to_int_id (mid - 1)) by (unfold INT_MIN, INT_MAX; lia).
      apply IH; lia.
Qed.

(** On a vector of fewer than [2^k] elements (and at most [INT_MAX]), [k]
    passes of the loop are enough: the loop cut off after [k] passes has
    reached the answer of [binarySearch].  In particular 31 passes are
    enough for every vector the function can index. *)
Theorem binarySearch_logarithmic arr target (k : nat) :
  Z.of_nat (length arr) <= INT_MAX →
  Z.of_nat (length arr) < 2 ^ Z.of_nat k →
  is_Some (binarySearch arr target)
  ∧ search k arr target 0 (to_int (size_minus_one arr))
    = binarySearch arr target.
Proof.
  intros Hlen Hk.
  unfold binarySearch. rewrite high_of_vector by done.
  destruct (search_sound arr target Hlen (S (length arr)) 0
              (Z.of_nat (length arr) - 1)) as (r & Hr & _); [lia..|].
  split; [rewrite Hr; eauto|].
  destruct (search_halves arr target Hlen k 0 (Z.of_nat (length arr) - 1))
    as [r' Hr']; [lia..|].
  rewrite Hr, Hr'. f_equal.
  destruct (Nat.le_ge_cases k (S (length arr))) as [Hle|Hle].
  - pose proof (search_fuel_le _ _ _ _ _ _ _ Hle Hr'). congruence.
  - pose proof (search_fuel_le _ _ _ _ _ _ _ Hle Hr). congruence.
Qed.

Lemma binarySearch_logarithmic_witness :
  is_Some (binarySearch numbers 91)
  ∧ search 4 numbers 91 0 (to_int (size_minus_one numbers))
    = binarySearch numbers 91.
Proof.
  apply (binarySearch_logarithmic numbers 91 4); [discriminate|reflexivity].
Defined.

End BinarySearchMore.

(** ** Names and keys in lower case *)

Section LowercaseNames.

Lemma first_match_found n l J :
  Spec.first_match n l J →
  Room.find_first n l = Some J
  ∧ ∃ l1 l2, l = l1 ++ J :: l2 ∧ Room.remove_first n l = Some (J, l1 ++ l2).
Proof.
  intros (l1 & l2 & -> & Hl1 & HJ).
  destruct (find_first_split n l1 J l2 Hl1 HJ) as [Hf Hr]. eauto.
Qed.

Lemma no_match_found n l :
  Spec.no_match n l → Room.find_first n l = None.
Proof. intros H. by destruct (find_first_none n l H). Qed.

Lemma find_first_lowercase n l J :
  Room.find_first n l = Some J → Text.lowercase n = n.
Proof.
  induction l as [|K l IH]; simpl; [done|].
  destruct (String.eqb_spec (Item.getNameLower K) n) as [<-|_]; [|done].
  intros _. apply lowercase_idemp.
Qed.

(** [findItem], [removeItem] and [hasItem] compare their argument with
    lowercased names and do not lowercase it themselves: an argument with
    an upper case letter in it matches no item, whatever the room and the
    inventory hold. *)
Theorem uppercase_name_matches_nothing (n : string) (r : Room.t) (p : Player.t) :
  Text.lowercase n ≠ n →
  Room.findItem n r = None
  ∧ Room.removeItem n r = (None, r)
  ∧ Player.hasItem n p = false.
Proof.
  intros Hn.
  assert (Hnone : ∀ l, Room.find_first n l = None).
  { intros l. destruct (Room.find_first n l) as [J|] eqn:HJ; [|done].
    by apply find_first_lowercase in HJ. }
  split; [apply Hnone|]. split.
  - unfold Room.removeItem.
    destruct (find_first_cases n (Room.items r))
      as [(_ & -> & _)|(l1 & J & l2 & _ & _ & _ & Hf & _)]; [done|].
    by rewrite Hnone in Hf.
  - unfold Player.hasItem. by rewrite Hnone.
Qed.

Lemma uppercase_name_matches_nothing_witness :
  let cell := Room.addItem (Some World.torch) (Room.new "Damp Cell" "") in
  let p := Player.mk (Some 0) [World.torch] in
  Room.findItem "Dim Torch" cell = None
  ∧ Room.removeItem "Dim Torch" cell = (None, cell)
  ∧ Player.hasItem "Dim Torch" p = false.
Proof.
  intros cell p.
  apply (uppercase_name_matches_nothing "Dim Torch" cell p). discriminate.
Defined.

Lemma lowercase_keys_new n desc : Spec.lowercase_keys (Room.new n desc).
Proof. intros k target. unfold Room.new. simpl. by rewrite lookup_empty. Qed.

(** [addExit] stores its direction in lower case, so a room whose exits
    all came from [addExit] has only lower case keys, and [getExit] on such
    a room returns the null pointer for every direction with an upper case
    letter in it. *)
Theorem addExit_keys_lowercase (R : Room.t) (D : string) (X : option nat) :
  Spec.lowercase_keys R →
  Spec.lowercase_keys (Room.addExit D X R)
  ∧ ∀ k, Text.lowercase k ≠ k → Room.getExit (Room.addExit D X R) k = None.
Proof.
  intros HR.
  assert (Hkeys : Spec.lowercase_keys (Room.addExit D X R)).
  { intros k target. unfold Room.addExit. simpl.
    destruct (decide (Text.lowercase D = k)) as [<-|Hne].
    - intros _. apply lowercase_idemp.
    - rewrite lookup_insert_ne by done. apply HR. }
  split; [exact Hkeys|]. intros k Hk. unfold Room.getExit.
  destruct (Room.exits (Room.addExit D X R) !! k) as [target|] eqn:Hlookup;
    [|done].
  by apply Hkeys in Hlookup.
Qed.

Lemma addExit_keys_lowercase_witness :
  let R := Room.new "Damp Cell" "" in
  Spec.lowercase_keys (Room.addExit "North" (Some 1) R)
  ∧ ∀ k, Text.lowercase k ≠ k →
         Room.getExit (Room.addExit "North" (Some 1) R) k = None.
Proof.
  intros R. apply (addExit_keys_lowercase R "North" (Some 1)).
  apply lowercase_keys_new.
Defined.

(** [addExit] for one direction changes nothing else: the exits in other
    directions, the name, the description and the items stay. *)
Theorem addExit_frame (R : Room.t) (D : string) (X : option nat) (k : string) :
  k ≠ Text.lowercase D →
  Room.getExit (Room.addExit D X R) k = Room.getExit R k
  ∧ Room.items (Room.addExit D X R) = Room.items R
  ∧ Room.name (Room.addExit D X R) = Room.name R
  ∧ Room.description (Room.addExit D X R) = Room.description R.
Proof.
  intros Hk. split; [by apply getExit_addExit_other|done].
Qed.

Lemma addExit_frame_witness :
  let R := Room.addExit "south" (Some 0) (Room.new "Narrow Corridor" "") in
  Room.getExit (Room.addExit "NORTH" (Some 2) R) "south" = Room.getExit R "south"
  ∧ Room.items (Room.addExit "NORTH" (Some 2) R) = Room.items R
  ∧ Room.name (Room.addExit "NORTH" (Some 2) R) = Room.name R
  ∧ Room.description (Room.addExit "NORTH" (Some 2) R) = Room.description R.
Proof.
  intros R. apply (addExit_frame R "NORTH" (Some 2) "south"). discriminate.
Defined.

End LowercaseNames.

(** ** Adding and finding items *)

Section AddFind.

Lemma find_first_app n l I :
  Room.find_first n (l ++ [I]) =
    match Room.find_first n l with
    | Some J => Some J
    | None => if String.eqb (Item.getNameLower I) n then Some I else None
    end.
Proof.
  induction l as [|K l IH]; simpl; [done|].
  by destruct (String.eqb (Item.getNameLower K) n).
Qed.

(** [addItem] appends: an item already in the room under the same
    lowercased name keeps being the one [findItem] returns; otherwise the
    new item is found under its own lowercased name and under no other.
    The null pointer is not added. *)
Theorem findItem_addItem (R : Room.t) (I : Item.t) (n : string) :
  Room.findItem n (Room.addItem (Some I) R) =
    match Room.findItem n R with
    | Some J => Some J
    | None => if String.eqb (Item.getNameLower I) n then Some I else None
    end
  ∧ Room.findItem (Item.getNameLower I) (Room.addItem (Some I) R) =
      match Room.findItem (Item.getNameLower I) R with
      | Some J => Some J
      | None => Some I
      end
  ∧ Room.addItem None R = R.
Proof.
  unfold Room.findItem, Room.addItem. simpl. rewrite !find_first_app.
  by rewrite String.eqb_refl.
Qed.

End AddFind.

(** ** Player: looking at items, and what a take leaves behind *)

Section PlayerItems.

Local Abbreviation unseen itemName :=
  ["You don't see any '" +:+ itemName +:+ "' here." +:+ Text.endl].
Local Abbreviation not_seen itemName :=
  ["You don't see a '" +:+ itemName +:+ "' here to take." +:+ Text.endl].
Local Abbreviation picked_up J :=
  ["You picked up the " +:+ Item.name J +:+ "." +:+ Text.endl].

(** [lookAt] lowercases the name and searches the inventory before the
    room: the first inventory item of that name is described even when the
    room has an item of the same name (the room is then not looked at, so
    this holds wherever the player is); without one, the first such item
    of the current room is described; without either, the name is echoed
    as it was typed in the "You don't see any" message. *)
Theorem lookAt_spec itemName rooms p :
  (∀ J, Spec.first_match (Text.lowercase itemName) (Player.inventory p) J →
        Player.lookAt itemName rooms p
        = Some [Item.description J +:+ Text.endl])
  ∧ (∀ here r,
        Spec.no_match (Text.lowercase itemName) (Player.inventory p) →
        Player.currentLocation p = Some here → rooms !! here = Some r →
        (∀ J, Spec.first_match (Text.lowercase itemName) (Room.items r) J →
              Player.lookAt itemName rooms p
              = Some [Item.description J +:+ Text.endl])
        ∧ (Spec.no_match (Text.lowercase itemName) (Room.items r) →
           Player.lookAt itemName rooms p = Some (unseen itemName))).
Proof.
  split.
  - intros J [Hfound _]%first_match_found. unfold Player.lookAt.
    by rewrite Hfound.
  - intros here r Hinv%no_match_found Hloc Hr. unfold Player.lookAt.
    rewrite Hinv, Hloc, Hr. simpl. unfold Room.findItem. split.
    + intros J [Hfound _]%first_match_found. by rewrite Hfound.
    + intros Hroom%no_match_found. by rewrite Hroom.
Qed.

Lemma lookAt_spec_witness :
  let hand := Item.mk "Lamp" "The lamp in your hand." true in
  let floor := Item.mk "LAMP" "The lamp on the floor." true in
  let cell := Room.addItem (Some floor) (Room.new "Damp Cell" "") in
  Player.lookAt "lamp" [cell] (Player.mk (Some 0) [hand])
  = Some ["The lamp in your hand." +:+ Text.endl]
  ∧ Player.lookAt "lamp" [cell] (Player.mk (Some 0) [])
    = Some ["The lamp on the floor." +:+ Text.endl]
  ∧ Player.lookAt "Lantern" [cell] (Player.mk (Some 0) [])
    = Some (unseen "Lantern").
Proof.
  intros hand floor cell. split; [|split].
  - apply (proj1 (lookAt_spec "lamp" [cell] (Player.mk (Some 0) [hand])) hand).
    exists [], []. split; [reflexivity|]. split; [|reflexivity].
    intros K HK. by apply elem_of_nil in HK.
  - refine (proj1 (proj2 (lookAt_spec "lamp" [cell] (Player.mk (Some 0) []))
                     0 cell _ eq_refl eq_refl) floor _).
    + intros K HK. by apply elem_of_nil in HK.
    + exists [], []. split; [reflexivity|]. split; [|reflexivity].
      intros K HK. by apply elem_of_nil in HK.
  - refine (proj2 (proj2 (lookAt_spec "Lantern" [cell] (Player.mk (Some 0) []))
                     0 cell _ eq_refl eq_refl) _).
    + intros K HK. by apply elem_of_nil in HK.
    + intros K HK. apply list_elem_of_singleton in HK. subst K. discriminate.
Defined.

Lemma hasItem_true n p :
  Player.hasItem n p = true ↔
  ∃ J, J ∈ Player.inventory p ∧ Item.getNameLower J = n.
Proof.
  unfold Player.hasItem.
  destruct (find_first_cases n (Player.inventory p))
    as [(-> & _ & Hnone)|(l1 & J & l2 & Hl & _ & HJ & -> & _)].
  - split; [done|]. intros (J & HJ & Hn). by apply Hnone in HJ.
  - split; [|done]. intros _. exists J. split; [|done].
    rewrite Hl. apply elem_of_app. right. left.
Qed.

(** After a successful [take] of the only item of that name in the room,
    the player has the item ([hasItem] holds and [lookAt] describes it),
    the inventory listing ends with it, and a second [take] of the same
    name finds nothing and changes nothing. *)
Theorem take_then_have itemName rooms p here r l1 J l2 :
  Player.currentLocation p = Some here → rooms !! here = Some r →
  Room.items r = l1 ++ J :: l2 →
  Item.getNameLower J = Text.lowercase itemName →
  Spec.no_match (Text.lowercase itemName) (l1 ++ l2) →
  Spec.no_match (Text.lowercase itemName) (Player.inventory p) →
  Item.takeable J = true →
  ∃ p' rooms',
    Player.take itemName rooms p = Some (p', rooms', picked_up J)
    ∧ Player.hasItem (Text.lowercase itemName) p' = true
    ∧ Player.lookAt itemName rooms' p'
      = Some [Item.description J +:+ Text.endl]
    ∧ last (Player.inventory p') = Some J
    ∧ Player.take itemName rooms' p' = Some (p', rooms', not_seen itemName).
Proof.
  intros Hloc Hr Hitems HJ Hrest Hinv Htake.
  assert (Hl1 : ∀ K, K ∈ l1 → Item.getNameLower K ≠ Text.lowercase itemName).
  { intros K HK. apply Hrest, elem_of_app. by left. }
  destruct (find_first_split _ l1 J l2 Hl1 HJ) as [Hfind Hremove].
  assert (Hhere : here < length rooms) by (by eapply lookup_lt_Some).
  exists (Player.mk (Some here) (Player.inventory p ++ [J])),
         (<[here := Spec.with_items r (l1 ++ l2)]> rooms).
  split; [|split; [|split; [|split]]].
  - unfold Player.take. rewrite Hloc, Hr. simpl.
    unfold Room.findItem, Room.removeItem. rewrite Hitems, Hfind, Htake, Hremove.
    done.
  - apply hasItem_true. exists J. split; [|done]. simpl.
    apply elem_of_app. right. left.
  - unfold Player.lookAt. simpl.
    assert (Hfirst : Spec.first_match (Text.lowercase itemName)
                       (Player.inventory p ++ [J]) J).
    { exists (Player.inventory p), []. done. }
    apply first_match_found in Hfirst as [-> _]. done.
  - simpl. apply last_snoc.
  - unfold Player.take. simpl.
    rewrite list_lookup_insert_eq by done. simpl.
    unfold Room.findItem. simpl. by rewrite (no_match_found _ _ Hrest).
Qed.

Lemma take_then_have_witness :
  let cell := Room.addItem (Some World.bed)
                (Room.addItem (Some World.torch) (Room.new "Damp Cell" "")) in
  let p := Player.new (Some 0) in
  ∃ p' rooms',
    Player.take "Dim TORCH" [cell] p
    = Some (p', rooms', picked_up World.torch)
    ∧ Player.hasItem (Text.lowercase "Dim TORCH") p' = true
    ∧ Player.lookAt "Dim TORCH" rooms' p'
      = Some [Item.description World.torch +:+ Text.endl]
    ∧ last (Player.inventory p') = Some World.torch
    ∧ Player.take "Dim TORCH" rooms' p'
      = Some (p', rooms', not_seen "Dim TORCH").
Proof.
  intros cell p.
  apply (take_then_have "Dim TORCH" [cell] p 0 cell [] World.torch [World.bed]);
    try reflexivity.
  - intros K HK. apply list_elem_of_singleton in HK. subst K. discriminate.
  - intros K HK. by apply elem_of_nil in HK.
Defined.

(** [take] lowercases the name before anything else: two spellings of a
    name that differ only in case take the same item, or both take
    nothing. *)
Theorem take_ignores_case itemName itemName' rooms p :
  Text.lowercase itemName' = Text.lowercase itemName →
  fst <$> Player.take itemName' rooms p = fst <$> Player.take itemName rooms p.
Proof.
  intros Hcase. unfold Player.take. rewrite Hcase.
  destruct (Player.currentLocation p) as [here|]; [|done].
  destruct (rooms !! here) as [r|]; [simpl|done].
  destruct (Room.findItem _ r) as [found|]; [|done].
  destruct (negb (Item.takeable found)); [done|].
  by destruct (Room.removeItem _ r) as [[removed|] r'].
Qed.

Lemma take_ignores_case_witness :
  let cell := Room.addItem (Some World.torch) (Room.new "Damp Cell" "") in
  fst <$> Player.take "DIM torch" [cell] (Player.new (Some 0))
  = fst <$> Player.take "dim Torch" [cell] (Player.new (Some 0)).
Proof.
  intros cell.
  apply (take_ignores_case "dim Torch" "DIM torch" [cell] (Player.new (Some 0))).
  reflexivity.
Defined.

End PlayerItems.

(** ** Parsing a line *)

Section Parsing.

Local Abbreviation not_space := (λ c : ascii, negb (Text.isspace c)).
Local Abbreviation not_newline := (λ c : ascii, negb (Ascii.eqb c "010")).

#[local] Arguments Text.isspace : simpl never.
#[local] Arguments Text.tolower : simpl never.
#[local] Arguments Ascii.eqb : simpl never.

Lemma isspace_tolower c : Text.isspace (Text.tolower c) = Text.isspace c.
Proof. destruct c as [[] [] [] [] [] [] [] []]; reflexivity. Qed.

Lemma skip_ws_empty s :
  Text.skip_ws s = EmptyString ↔ Spec.all_chars Text.isspace s = true.
Proof.
  induction s as [|c s IH]; simpl; [done|].
  destruct (Text.isspace c) eqn:Hc; simpl; [done|]. split; discriminate.
Qed.

(** What is left after the leading whitespace starts with a character
    that is not whitespace. *)
Lemma skip_ws_head s c s' :
  Text.skip_ws s = String c s' → Text.isspace c = false.
Proof.
  induction s as [|d s IH]; simpl; [done|].
  destruct (Text.isspace d) eqn:Hd; [done|]. by intros [= <- <-].
Qed.

Lemma take_word_shape s :
  Spec.all_chars not_space (Text.take_word s).1 = true
  ∧ s = (Text.take_word s).1 +:+ (Text.take_word s).2.
Proof.
  induction s as [|c s [IHw IHr]]; simpl; [done|].
  destruct (Text.isspace c) eqn:Hc; simpl; [done|].
  destruct (Text.take_word s) as [w r]. simpl in *.
  rewrite Hc, IHw. simpl. by rewrite IHr at 1.
Qed.

Lemma lowercase_not_space w :
  Spec.all_chars not_space (Text.lowercase w)
  = Spec.all_chars not_space w.
Proof.
  induction w as [|c w IH]; simpl; [done|]. by rewrite isspace_tolower, IH.
Qed.

Lemma drop_spaces_idemp s :
  Text.drop_spaces (Text.drop_spaces s) = Text.drop_spaces s.
Proof.
  induction s as [|c s IH]; [done|]. cbn [Text.drop_spaces].
  destruct (Ascii.eqb c " ") eqn:Hc; [done|].
  cbn [Text.drop_spaces]. by rewrite Hc.
Qed.

(** The verb [parseInput] stores is empty exactly when the line holds
    nothing but whitespace, and then the noun is empty too; the verb is in
    lower case and has no whitespace in it; the noun does not start with a
    space. *)
Theorem parseInput_shape (input : string) :
  ((Game.parseInput input).1 = EmptyString ↔
   Spec.all_chars Text.isspace input = true)
  ∧ Text.lowercase (Game.parseInput input).1 = (Game.parseInput input).1
  ∧ Spec.all_chars not_space (Game.parseInput input).1 = true
  ∧ Text.drop_spaces (Game.parseInput input).2 = (Game.parseInput input).2
  ∧ (if Text.empty (Game.parseInput input).1
     then (Game.parseInput input).2 = EmptyString else True).
Proof.
  unfold Game.parseInput.
  destruct (Text.skip_ws input) as [|c s] eqn:Hskip.
  { simpl. split; [|done]. split; [intros _; by apply skip_ws_empty|done]. }
  pose proof (skip_ws_head _ _ _ Hskip) as Hc.
  destruct (take_word_shape (String c s)) as [Hword _].
  simpl in *. rewrite Hc in *.
  destruct (Text.take_word s) as [w rest]. simpl in *.
  split; [|split; [|split; [|split]]].
  - split; [done|]. intros Hall%skip_ws_empty. congruence.
  - by rewrite tolower_idemp, lowercase_idemp.
  - rewrite isspace_tolower, Hc. simpl. rewrite lowercase_not_space.
    by rewrite Hc in Hword.
  - apply drop_spaces_idemp.
  - done.
Qed.

Lemma skip_ws_pad pad s :
  Spec.all_chars Text.isspace pad = true →
  Text.skip_ws (pad +:+ s) = Text.skip_ws s.
Proof.
  induction pad as [|c pad IH]; simpl; [done|].
  intros [-> Hpad]%andb_true_iff. auto.
Qed.

Lemma skip_ws_word word s :
  word ≠ EmptyString → Spec.all_chars not_space word = true →
  Text.skip_ws (word +:+ s) = word +:+ s.
Proof.
  destruct word as [|c word]; [done|]. simpl.
  intros _ [Hc _]%andb_true_iff. by destruct (Text.isspace c).
Qed.

Lemma take_word_word word :
  Spec.all_chars not_space word = true →
  Text.take_word word = (word, EmptyString)
  ∧ ∀ sep rest, Text.isspace sep = true →
      Text.take_word (word +:+ String sep rest) = (word, String sep rest).
Proof.
  induction word as [|c word IH]; simpl.
  - intros _. split; [done|]. by intros sep rest ->.
  - intros [Hc Hword]%andb_true_iff. apply negb_true_iff in Hc.
    rewrite Hc. destruct (IH Hword) as [-> IHsep]. split; [done|].
    intros sep rest Hsep. by rewrite (IHsep sep rest Hsep).
Qed.

Lemma until_newline_none s :
  Spec.all_chars not_newline s = true → Text.until_newline s = s.
Proof.
  induction s as [|c s IH]; simpl; [done|].
  intros [Hc Hs]%andb_true_iff. apply negb_true_iff in Hc.
  by rewrite Hc, IH.
Qed.

Lemma append_empty_r s : s +:+ EmptyString = s.
Proof.
  induction s as [|c s IH]; [done|].
  change (String c (s +:+ EmptyString) = String c s). by rewrite IH.
Qed.

(** A command line is read back as it was put together: whitespace before
    the word is skipped, the word is lowercased into the verb, and after
    the separating space the argument is the noun, as typed but for its
    leading spaces; a word alone leaves the noun empty. *)
Theorem parseInput_command (pad word arg : string) :
  Spec.all_chars Text.isspace pad = true →
  word ≠ EmptyString → Spec.all_chars not_space word = true →
  Spec.all_chars not_newline arg = true →
  Game.parseInput (pad +:+ word) = (Text.lowercase word, EmptyString)
  ∧ Game.parseInput (pad +:+ word +:+ String " " arg)
    = (Text.lowercase word, Text.drop_spaces arg).
Proof.
  intros Hpad Hne Hword Harg. unfold Game.parseInput.
  destruct (take_word_word word Hword) as [Halone Hsep].
  split.
  - rewrite (skip_ws_pad pad word Hpad).
    rewrite <- (append_empty_r word) at 1.
    rewrite (skip_ws_word word EmptyString Hne Hword), append_empty_r.
    destruct word as [|c word]; [done|]. by rewrite Halone.
  - rewrite (skip_ws_pad pad _ Hpad), (skip_ws_word word _ Hne Hword).
    destruct (word +:+ String " " arg) as [|a s0] eqn:Hline.
    { destruct word; [done|discriminate]. }
    rewrite <- Hline, (Hsep " "%char arg eq_refl).
    change (Text.until_newline (String " " arg))
      with (String " " (Text.until_newline arg)).
    change (Text.drop_spaces (String " " (Text.until_newline arg)))
      with (Text.drop_spaces (Text.until_newline arg)).
    by rewrite (until_newline_none arg Harg).
Qed.

Lemma parseInput_command_witness :
  Game.parseInput ("  " +:+ "INVENTORY") = ("inventory", EmptyString)
  ∧ Game.parseInput ("  " +:+ "TAKE" +:+ String " " "  Dim Torch ")
    = ("take", "Dim Torch ").
Proof.
  split.
  - exact (proj1 (parseInput_command "  " "INVENTORY" "" eq_refl
                    ltac:(discriminate) eq_refl eq_refl)).
  - exact (proj2 (parseInput_command "  " "TAKE" "  Dim Torch " eq_refl
                    ltac:(discriminate) eq_refl eq_refl)).
Defined.

End Parsing.

(** ** What a command can and cannot change *)

Section Effects.

Local Abbreviation prompt := (Text.endl +:+ "> ").
Local Abbreviation question := "Are you sure you want to quit? (yes/no): ".
Local Abbreviation goodbye :=
  (Text.endl +:+ "Goodbye! Thanks for playing." +:+ Text.endl).
Local Abbreviation continuing := ("Okay, continuing game." +:+ Text.endl).
Local Abbreviation end_of_input :=
  ("Error reading input or EOF detected. Quitting." +:+ Text.endl).
Local Abbreviation sorry verb :=
  ("Sorry, I don't understand '" +:+ verb +:+ "'. Try 'help' for commands."
   +:+ Text.endl).

Lemma evolves_refl g : Spec.evolves g g.
Proof.
  split; [done|]. split; [|done]. exists []. by rewrite app_nil_r.
Qed.

Lemma evolves_same g p rooms over :
  p = Game.player g → rooms = Game.allRooms g →
  Spec.evolves g (Game.mk p rooms over).
Proof.
  intros -> ->. split; [done|]. split; [|done]. exists [].
  by rewrite app_nil_r.
Qed.

Lemma evolves_trans g1 g2 g3 :
  Spec.evolves g1 g2 → Spec.evolves g2 g3 → Spec.evolves g1 g3.
Proof.
  intros (Hf & (m & Hm & Ht) & Hl) (Hf' & (m' & Hm' & Ht') & Hl').
  split; [congruence|]. split; [|auto].
  exists (m ++ m'). split; [by rewrite Hm', Hm, app_assoc|].
  by apply Forall_app.
Qed.

Lemma follows_refl c : Spec.follows c c.
Proof.
  split; [by exists []|]. split; [|done]. exists []. by rewrite app_nil_r.
Qed.

Lemma follows_trans c1 c2 c3 :
  Spec.follows c1 c2 → Spec.follows c2 c3 → Spec.follows c1 c3.
Proof.
  intros ((r & Hr) & (w & Hw) & He) ((r' & Hr') & (w' & Hw') & He').
  split; [|split; [|congruence]].
  - exists (r ++ r'). by rewrite Hr, Hr', app_assoc.
  - exists (w ++ w'). by rewrite Hw', Hw, app_assoc.
Qed.

Lemma follows_print chunks c : Spec.follows c (Console.print chunks c).
Proof. split; [by exists []|]. split; [by exists chunks|done]. Qed.

Lemma frame_insert (rooms : list Room.t) (here : nat) r l :
  rooms !! here = Some r →
  Spec.frame <$> <[here := Spec.with_items r l]> rooms = Spec.frame <$> rooms.
Proof.
  intros Hr. rewrite list_fmap_insert. apply list_insert_id.
  by rewrite list_lookup_fmap, Hr.
Qed.

(** [take] changes no room but for its items and moves the player
    nowhere; what it adds to the inventory is takeable. *)
Lemma take_effects itemName rooms p p' rooms' out :
  Player.take itemName rooms p = Some (p', rooms', out) →
  Spec.frame <$> rooms' = Spec.frame <$> rooms
  ∧ (∃ more, Player.inventory p' = Player.inventory p ++ more
             ∧ Forall (λ J, Item.takeable J = true) more)
  ∧ Player.currentLocation p' = Player.currentLocation p.
Proof.
  assert (Hsame : ∃ more, Player.inventory p = Player.inventory p ++ more
                          ∧ Forall (λ J, Item.takeable J = true) more).
  { exists []. by rewrite app_nil_r. }
  unfold Player.take.
  destruct (Player.currentLocation p) as [here|] eqn:Hloc;
    [|by intros [= <- <- <-]].
  destruct (rooms !! here) as [r|] eqn:Hr; [simpl|done].
  destruct (Room.findItem _ r) as [found|] eqn:Hfound;
    [|by intros [= <- <- <-]].
  destruct (Item.takeable found) eqn:Htake; simpl; [|by intros [= <- <- <-]].
  unfold Room.findItem, Room.removeItem in *.
  destruct (find_first_cases (Text.lowercase itemName) (Room.items r))
    as [(Hf & _)|(l1 & J & l2 & _ & _ & _ & Hf & ->)]; [congruence|].
  assert (J = found) as -> by congruence.
  intros [= <- <- <-]. simpl. split; [by apply (frame_insert rooms here r)|].
  split; [|done]. exists [found]. split; [done|]. by constructor.
Qed.

(** [go] leaves the inventory alone, and a player who is somewhere stays
    somewhere. *)
Lemma go_effects direction rooms p p' out :
  Player.go direction rooms p = Some (p', out) →
  Player.inventory p' = Player.inventory p
  ∧ (is_Some (Player.currentLocation p) → is_Some (Player.currentLocation p')).
Proof.
  unfold Player.go, Player.moveTo.
  destruct (Player.currentLocation p) as [here|] eqn:Hloc.
  2:{ intros [= <- <-]. by rewrite Hloc. }
  destruct (rooms !! here) as [r|]; [simpl|done].
  destruct (Room.getExit r _) as [target|].
  - destruct (rooms !! target) as [r'|]; [simpl|done].
    destruct (Room.look rooms r') as [view|]; [simpl|done].
    intros [= <- <-]. simpl. eauto.
  - intros [= <- <-]. rewrite Hloc. eauto.
Qed.

Lemma last_print chunk chunks c :
  last (Console.cout (Console.print (chunks ++ [chunk]) c)) = Some chunk.
Proof. unfold Console.print. simpl. by rewrite app_assoc, last_snoc. Qed.

(** Whatever the verb, a command that returns leaves the map alone, takes
    nothing out of the inventory, reads at most the answer to its own
    question, only adds to the output, and ends the game only by saying
    goodbye. *)
Lemma handleCommand_effects verb noun g c g' c' :
  Game.handleCommand verb noun g c = Some (g', c') →
  Spec.evolves g g' ∧ Spec.follows c c'
  ∧ length (Console.cin c') <= length (Console.cin c)
  ∧ (Game.gameOver g' = Game.gameOver g
     ∨ (Game.gameOver g' = true ∧ last (Console.cout c') = Some goodbye)).
Proof.
  unfold Game.handleCommand.
  destruct (Game.is_quit verb).
  { destruct c as [[|answer rest] out err]; simpl.
    - intros [= <- <-]. split; [apply evolves_refl|]. split; [|auto].
      split; [by exists []|]. split; [|done]. eexists. simpl.
      by rewrite <- app_assoc.
    - destruct (Game.is_yes (Text.lowercase answer)); intros [= <- <-].
      + split; [by apply evolves_same|]. split; [|split; [simpl; lia|]].
        * split; [by exists [answer]|]. split; [|done]. eexists. simpl.
          by rewrite <- app_assoc.
        * right. split; [done|]. simpl. apply last_snoc.
      + split; [apply evolves_refl|]. split; [|split; [simpl; lia|by left]].
        split; [by exists [answer]|]. split; [|done]. eexists. simpl.
        by rewrite <- app_assoc. }
  destruct (String.eqb verb "look").
  { destruct (if Text.empty noun then _ else _) as [out|]; [simpl|done].
    intros [= <- <-]. split; [apply evolves_refl|].
    split; [apply follows_print|]. auto. }
  destruct (_ || _).
  { destruct (Text.empty noun).
    - intros [= <- <-]. split; [apply evolves_refl|].
      split; [apply follows_print|]. auto.
    - destruct (Player.go noun _ _) as [[p out]|] eqn:Hgo; [simpl|done].
      intros [= <- <-]. destruct (go_effects _ _ _ _ _ Hgo) as [Hinv Hloc].
      split; [|split; [apply follows_print|auto]].
      split; [done|]. simpl. split; [|done].
      exists []. by rewrite app_nil_r. }
  destruct (_ || _).
  { destruct (Text.empty noun).
    - intros [= <- <-]. split; [apply evolves_refl|].
      split; [apply follows_print|]. auto.
    - destruct (Player.take noun _ _) as [[[p rooms] out]|] eqn:Htake;
        [simpl|done].
      intros [= <- <-].
      destruct (take_effects _ _ _ _ _ _ Htake) as (Hframe & Hinv & Hloc).
      split; [|split; [apply follows_print|auto]].
      split; [done|]. simpl. split; [done|]. by rewrite Hloc. }
  destruct (_ || _).
  { intros [= <- <-]. split; [apply evolves_refl|].
    split; [apply follows_print|]. auto. }
  destruct (_ || _); intros [= <- <-]; (split; [apply evolves_refl|]);
    (split; [apply follows_print|]); auto.
Qed.

(** A conjunct of the frame statement either holds outright or assumes
    the verb away from a list that holds it. *)
Local Ltac settle :=
  repeat split; try done; intros; exfalso;
  match goal with Hno : _ ∉ _ |- _ => apply Hno; repeat constructor end.

(** The verb behind a true test [verb == "a" || verb == "b" || ...]. *)
Local Ltac which_verb H :=
  repeat (apply orb_true_iff in H as [H|H]);
  apply String.eqb_eq in H; subst.

(** Only quit can end the game or read a line; only take, get and pickup
    can change a room or the inventory; only go, move and walk can move
    the player; and a verb that is none of the thirteen known ones changes
    nothing at all and is answered with the "Sorry" message. *)
Theorem handleCommand_touches verb noun g c g' c' :
  Game.handleCommand verb noun g c = Some (g', c') →
  (verb ∉ ["quit"; "exit"] →
   Game.gameOver g' = Game.gameOver g ∧ Console.cin c' = Console.cin c)
  ∧ (verb ∉ ["take"; "get"; "pickup"] →
     Game.allRooms g' = Game.allRooms g
     ∧ Player.inventory (Game.player g') = Player.inventory (Game.player g))
  ∧ (verb ∉ ["go"; "move"; "walk"] →
     Player.currentLocation (Game.player g')
     = Player.currentLocation (Game.player g))
  ∧ (verb ∉ ["quit"; "exit"; "look"; "go"; "move"; "walk"; "take"; "get";
             "pickup"; "inventory"; "i"; "help"; "?"] →
     g' = g ∧ c' = Console.print [sorry verb] c).
Proof.
  unfold Game.handleCommand, Game.is_quit.
  destruct (String.eqb_spec verb "quit") as [->|_].
  { destruct c as [[|answer rest] out err]; simpl;
      [|destruct (Game.is_yes _)]; intros [= <- <-];
      settle. }
  destruct (String.eqb_spec verb "exit") as [->|_].
  { destruct c as [[|answer rest] out err]; simpl;
      [|destruct (Game.is_yes _)]; intros [= <- <-];
      settle. }
  simpl.
  destruct (String.eqb_spec verb "look") as [->|_].
  { destruct (if Text.empty noun then _ else _) as [out|]; [simpl|done].
    intros [= <- <-].
    settle. }
  destruct (String.eqb verb "go" || String.eqb verb "move"
            || String.eqb verb "walk") eqn:Hgo.
  { which_verb Hgo; simpl.
    all: destruct (Text.empty noun); [intros [= <- <-]; settle|].
    all: destruct (Player.go noun _ _) as [[p out]|] eqn:Hmove; [simpl|done].
    all: intros [= <- <-]; destruct (go_effects _ _ _ _ _ Hmove) as [Hinv _].
    all: settle. }
  destruct (String.eqb verb "take" || String.eqb verb "get"
            || String.eqb verb "pickup") eqn:Htake.
  { which_verb Htake; simpl.
    all: destruct (Text.empty noun); [intros [= <- <-]; settle|].
    all: destruct (Player.take noun _ _) as [[[p rooms] out]|] eqn:Hpick;
      [simpl|done].
    all: intros [= <- <-].
    all: destruct (take_effects _ _ _ _ _ _ Hpick) as (_ & _ & Hloc).
    all: settle. }
  destruct (String.eqb verb "inventory" || String.eqb verb "i") eqn:Hinv.
  { which_verb Hinv; simpl; intros [= <- <-]; settle. }
  destruct (String.eqb verb "help" || String.eqb verb "?") eqn:Hhelp.
  { which_verb Hhelp; simpl; intros [= <- <-]; settle. }
  intros [= <- <-]. repeat split; done.
Qed.

Lemma handleCommand_touches_witness :
  let g := (Spec.fresh []).1 in
  let c := Console.mk ["look"] [] [] in
  Game.handleCommand "dance" "wildly" g c
    = Some (g, Console.print [sorry "dance"] c)
  ∧ Game.gameOver g = Game.gameOver g
  ∧ Console.cin (Console.print [sorry "dance"] c) = ["look"].
Proof.
  intros g c. split; [reflexivity|].
  refine (proj1 (handleCommand_touches "dance" "wildly" g c g
                   (Console.print [sorry "dance"] c) eq_refl) _).
  intros Hin. apply elem_of_cons in Hin as [Hin|Hin]; [discriminate|].
  apply list_elem_of_singleton in Hin. discriminate.
Defined.

End Effects.

(** ** The loop from its first line to its last *)

Section RunMore.

Local Abbreviation prompt := (Text.endl +:+ "> ").
Local Abbreviation question := "Are you sure you want to quit? (yes/no): ".
Local Abbreviation goodbye :=
  (Text.endl +:+ "Goodbye! Thanks for playing." +:+ Text.endl).
Local Abbreviation continuing := ("Okay, continuing game." +:+ Text.endl).
Local Abbreviation end_of_input :=
  ("Error reading input or EOF detected. Quitting." +:+ Text.endl).
Local Abbreviation items_of g :=
  (Spec.all_items (Game.allRooms g) (Game.player g)).

(** How the loop can have ended: by a confirmed quit, the goodbye being
    the last thing written, or at the end of the input, the notice of it
    being the last thing written. *)
Local Abbreviation ended g c :=
  ((Game.gameOver g = true ∧ last (Console.cout c) = Some goodbye)
   ∨ (Game.gameOver g = false ∧ Console.cin c = []
      ∧ last (Console.cout c) = Some end_of_input)).

Lemma iteration_effects g c continue g' c' :
  Game.iteration g c = Some (continue, g', c') →
  Spec.evolves g g' ∧ Spec.follows c c'
  ∧ (continue = false →
     g' = g ∧ Console.cin c' = []
     ∧ last (Console.cout c') = Some end_of_input)
  ∧ (continue = true →
     Game.gameOver g' = Game.gameOver g
     ∨ (Game.gameOver g' = true ∧ last (Console.cout c') = Some goodbye)).
Proof.
  unfold Game.iteration.
  destruct c as [[|inputLine rest] out err]; simpl.
  { intros [= <- <- <-]. split; [apply evolves_refl|]. split.
    - split; [by exists []|]. split; [|done]. eexists. simpl.
      by rewrite <- app_assoc.
    - split; [|done]. intros _. split; [done|]. split; [done|]. simpl.
      apply last_snoc. }
  assert (Hread : Spec.follows
                    (Console.mk (inputLine :: rest) out err)
                    (Console.mk rest (out ++ [prompt]) err)).
  { split; [by exists [inputLine]|]. split; [by exists [prompt]|done]. }
  destruct (Text.empty inputLine).
  { intros [= <- <- <-]. split; [apply evolves_refl|]. split; [done|].
    split; [done|auto]. }
  destruct (Game.parseInput inputLine) as [verb noun].
  destruct (negb (Text.empty verb)).
  - destruct (Game.handleCommand verb noun g _) as [[g1 c1]|] eqn:Hcmd;
      [simpl|done].
    intros [= <- <- <-].
    destruct (handleCommand_effects _ _ _ _ _ _ Hcmd) as (He & Hf & _ & Hover).
    split; [done|]. split; [by eapply follows_trans|]. split; [done|auto].
  - destruct (_ && _); intros [= <- <- <-];
      (split; [apply evolves_refl|]); (split; [|split; [done|auto]]);
      [eapply follows_trans; [exact Hread|apply follows_print]|done].
Qed.

Lemma loop_effects fuel :
  ∀ g c g' c',
    Game.loop fuel g c = Finished (g', c') →
    Spec.evolves g g' ∧ Spec.follows c c'
    ∧ (Game.gameOver g = false → ended g' c').
Proof.
  induction fuel as [|fuel IH]; intros g c g' c'; cbn [Game.loop].
  - destruct (Game.gameOver g) eqn:Hover; [|done].
    intros [= <- <-]. split; [apply evolves_refl|].
    split; [apply follows_refl|done].
  - destruct (Game.gameOver g) eqn:Hover.
    { intros [= <- <-]. split; [apply evolves_refl|].
      split; [apply follows_refl|done]. }
    destruct (Game.iteration g c) as [[[continue g1] c1]|] eqn:Hiter; [|done].
    destruct (iteration_effects _ _ _ _ _ Hiter) as (He & Hf & Hbreak & Hgo).
    destruct continue.
    + intros Hloop. destruct (IH _ _ _ _ Hloop) as (He' & Hf' & Hend).
      split; [by eapply evolves_trans|]. split; [by eapply follows_trans|].
      intros _. destruct (Hgo eq_refl) as [Hsame|[Hover1 Hbye]].
      * apply Hend. congruence.
      * rewrite (loop_gameOver fuel g1 c1 Hover1) in Hloop.
        injection Hloop as <- <-. by left.
    + intros [= <- <-]. split; [done|]. split; [done|]. intros _.
      destruct (Hbreak eq_refl) as (-> & Hcin & Hlast). right. done.
Qed.

(** The run on the world of the constructor, put together: it ends, the
    game stays sound, the items are conserved, and the game and the
    streams differ from the initial ones only as [evolves] and [follows]
    allow. *)
Lemma run_fresh lines :
  ∃ view g c,
    Player.look (Game.allRooms (Spec.fresh lines).1)
      (Game.player (Spec.fresh lines).1) = Some view
    ∧ Game.run (Spec.fresh lines).1 (Spec.fresh lines).2 = Finished (g, c)
    ∧ Spec.sound g
    ∧ items_of g ≡ₚ items_of (Spec.fresh lines).1
    ∧ Spec.evolves (Spec.fresh lines).1 g
    ∧ Spec.follows (Console.print view (Spec.fresh lines).2) c
    ∧ ended g c.
Proof.
  pose proof (fresh_sound lines) as Hsound.
  destruct (player_look_total _ Hsound) as [view Hview].
  exists view. unfold Game.run.
  change (Game.gameOver (Spec.fresh lines).1) with false. cbv iota.
  rewrite Hview.
  destruct (loop_sound
              (S (length (Console.cin (Console.print view (Spec.fresh lines).2))))
              (Spec.fresh lines).1
              (Console.print view (Spec.fresh lines).2) Hsound)
    as (g & c & Hloop & Hs & Hperm); [lia|].
  destruct (loop_effects _ _ _ _ _ Hloop) as (He & Hf & Hend).
  exists g, c. repeat (split; [done|]). by apply Hend.
Qed.

(** Whatever is typed, the rooms keep their names, descriptions and exits
    from [createWorld] to the end of [Game::run], and the player ends in
    one of the rooms. *)
Theorem run_keeps_the_map (lines : list string) :
  ∃ g c,
    Game.run (Spec.fresh lines).1 (Spec.fresh lines).2 = Finished (g, c)
    ∧ Spec.frame <$> Game.allRooms g
      = Spec.frame <$> Game.allRooms (Spec.fresh lines).1
    ∧ ∃ here r,
        Player.currentLocation (Game.player g) = Some here
        ∧ Game.allRooms g !! here = Some r.
Proof.
  destruct (run_fresh lines)
    as (view & g & c & _ & Hrun & [_ Hvalid] & _ & (Hframe & _ & Hloc) & _).
  exists g, c. split; [done|]. split; [done|].
  destruct Hloc as [here Hhere]; [by exists 0|].
  destruct (Hvalid here Hhere) as [r Hr]. eauto.
Qed.

(** Whatever is typed, the inventory at the end of [Game::run] holds only
    takeable items, and every item created as scenery is still lying in a
    room. *)
Theorem run_leaves_scenery (lines : list string) :
  ∃ g c,
    Game.run (Spec.fresh lines).1 (Spec.fresh lines).2 = Finished (g, c)
    ∧ Forall (λ J, Item.takeable J = true) (Player.inventory (Game.player g))
    ∧ ∀ J, J ∈ World.created_items → Item.takeable J = false →
           ∃ r, r ∈ Game.allRooms g ∧ J ∈ Room.items r.
Proof.
  destruct (run_fresh lines)
    as (view & g & c & _ & Hrun & _ & Hperm & (_ & (more & Hinv & Hmore) & _) & _).
  assert (Hfresh : items_of (Spec.fresh lines).1 ≡ₚ World.created_items).
  { change (Spec.fresh lines).1 with (Spec.fresh []).1.
    apply (bool_decide_unpack _). vm_compute. exact I. }
  change (Player.inventory (Game.player (Spec.fresh lines).1)) with
    (@nil Item.t) in Hinv. simpl in Hinv.
  exists g, c. split; [done|]. split; [by rewrite Hinv|].
  intros J HJ Hscenery. rewrite <- Hfresh, <- Hperm in HJ.
  unfold Spec.all_items in HJ. apply elem_of_app in HJ as [HJ|HJ].
  - apply list_elem_of_In, in_concat in HJ as (l & Hl & HJl).
    apply in_map_iff in Hl as (r & <- & Hr).
    exists r. split; by apply list_elem_of_In.
  - rewrite Hinv in HJ. rewrite Forall_forall in Hmore.
    apply Hmore in HJ. congruence.
Qed.

(** Whatever is typed, [Game::run] ends in one of two ways: the game is
    over and the goodbye was the last thing written, or the game is not
    over, every line was read and the end-of-input notice was the last
    thing written.  The lines were read in order from the front, and
    nothing went to the error stream. *)
Theorem run_end_state (lines : list string) :
  ∃ g c,
    Game.run (Spec.fresh lines).1 (Spec.fresh lines).2 = Finished (g, c)
    ∧ ((Game.gameOver g = true ∧ last (Console.cout c) = Some goodbye)
       ∨ (Game.gameOver g = false ∧ Console.cin c = []
          ∧ last (Console.cout c) = Some end_of_input))
    ∧ (∃ read, lines = read ++ Console.cin c)
    ∧ Console.cerr c = [].
Proof.
  destruct (run_fresh lines)
    as (view & g & c & _ & Hrun & _ & _ & _ & (Hread & _ & Herr) & Hend).
  exists g, c. split; [done|]. split; [done|]. split; [exact Hread|].
  exact Herr.
Qed.

(** A quit that is the last line of the input gets no answer, which counts
    as a no: the game goes on, and the next pass of the loop ends it for
    lack of input, with [gameOver] still unset. *)
Theorem quit_at_end_of_input g out err line fuel :
  Game.gameOver g = false →
  Game.is_quit (Game.parseInput line).1 = true →
  Game.loop (S (S fuel)) g (Console.mk [line] out err) =
    Finished (g, Console.mk []
                   (out ++ [prompt; question; continuing;
                            prompt; end_of_input]) err).
Proof.
  intros Hrunning Hquit.
  assert (Hpass : Game.iteration g (Console.mk [line] out err) =
                  Some (true, g,
                        Console.mk [] (out ++ [prompt; question; continuing])
                          err)).
  { unfold Game.iteration. simpl.
    destruct line as [|ch line]; [done|]. cbn [Text.empty].
    destruct (Game.parseInput (String ch line)) as [verb noun].
    simpl in Hquit.
    assert (Hverb : negb (Text.empty verb) = true).
    { by destruct (is_quit_cases verb Hquit) as [-> | ->]. }
    rewrite Hverb. unfold Game.handleCommand. rewrite Hquit. simpl.
    unfold Console.print. simpl. by rewrite <- !app_assoc. }
  cbn [Game.loop]. rewrite Hrunning, Hpass, Hrunning.
  unfold Game.iteration, Console.print. simpl.
  by rewrite <- !app_assoc.
Qed.

Lemma quit_at_end_of_input_witness :
  Game.loop 2 (Spec.fresh []).1 (Console.mk ["Quit"] [] []) =
    Finished ((Spec.fresh []).1,
              Console.mk []
                [prompt; question; continuing; prompt; end_of_input] []).
Proof.
  exact (quit_at_end_of_input (Spec.fresh []).1 [] [] "Quit" 0
           eq_refl eq_refl).
Defined.

End RunMore.

(** ** The program *)

Section Main.

Local Abbreviation prompt := (Text.endl +:+ "> ").

Lemma iteration_blank_witness :
  Game.iteration (Spec.fresh []).1 (Console.mk ["   "; "look"] [] []) =
    Some (true, (Spec.fresh []).1, Console.mk ["look"] [prompt] []).
Proof.
  exact (iteration_blank (Spec.fresh []).1 [] [] "   " ["look"] eq_refl).
Defined.

(** The run on the world of the constructor, on any console. *)
Lemma run_world c0 :
  ∃ view g c,
    Game.run (Spec.fresh []).1 c0 = Finished (g, c)
    ∧ Spec.follows (Console.print view c0) c.
Proof.
  pose proof (fresh_sound []) as Hsound.
  destruct (player_look_total _ Hsound) as [view Hview].
  exists view. unfold Game.run.
  change (Game.gameOver (Spec.fresh []).1) with false. cbv iota.
  rewrite Hview.
  destruct (loop_sound (S (length (Console.cin (Console.print view c0))))
              (Spec.fresh []).1 (Console.print view c0) Hsound)
    as (g & c & Hloop & _); [lia|].
  destruct (loop_effects _ _ _ _ _ Hloop) as (_ & Hf & _).
  exists g, c. exact (conj Hloop Hf).
Qed.

(** The constructor builds the same game on every console and writes
    three lines. *)
Lemma new_game c :
  Game.new c =
    ((Spec.fresh []).1,
     Console.print ["Type 'help' for commands." +:+ Text.endl +:+ Text.endl]
       (Console.print
          ["World created. Player starts in: Damp Cell" +:+ Text.endl]
          (Console.print ["Initializing game world..." +:+ Text.endl] c))).
Proof. destruct c as [input out err]. vm_compute. reflexivity. Qed.

(** Whatever is typed, [main] runs to its end: the output opens with the
    banner and the three lines of the constructor, closes with the two
    lines of the destructor and "Exiting program.", nothing goes to the
    error stream, and the lines were read in order from the front. *)
Theorem main_ends (lines : list string) :
  ∃ c middle read,
    main (Console.mk lines [] []) = Finished c
    ∧ Console.cout c =
        [Text.fill 60 "#" +:+ Text.endl;
         "###          Welcome to Simple Text Adventure!          ###"
         +:+ Text.endl;
         Text.fill 60 "#" +:+ Text.endl;
         Text.endl;
         "Initializing game world..." +:+ Text.endl;
         "World created. Player starts in: Damp Cell" +:+ Text.endl;
         "Type 'help' for commands." +:+ Text.endl +:+ Text.endl]
        ++ middle ++
        [Text.endl +:+ "Cleaning up game resources..." +:+ Text.endl;
         "Cleanup complete." +:+ Text.endl;
         Text.endl +:+ "Exiting program." +:+ Text.endl]
    ∧ Console.cerr c = []
    ∧ lines = read ++ Console.cin c.
Proof.
  unfold main. rewrite new_game.
  match goal with
  | |- context [Game.run _ ?c] => set (c1 := c)
  end.
  destruct (run_world c1)
    as (view & g & c & Hrun & (read & Hread) & (written & Hout) & Herr).
  rewrite Hrun.
  eexists _, (view ++ written), read. split; [reflexivity|].
  unfold Game.delete, Console.print. cbn [Console.cout Console.cerr Console.cin].
  rewrite Hout, Herr. split; [|split; [reflexivity|exact Hread]].
  subst c1. unfold Console.print, Room.printSeparator.
  cbn [Console.cout app]. by rewrite <- !app_assoc.
Qed.

End Main.
